(** * Rig place-and-route: geometry, machine model and NER routing

    A shallow embedding of the parts of [rig] that the specification's
    testable properties talk about:

    - [rig/geometry.py]: [to_xyz], [minimise_xyz], the shortest-path
      functions for meshes and tori, [concentric_hexagons];
    - [rig/place_and_route/route/utils.py]: [longest_dimension_first],
      [links_between];
    - [rig/machine.py]: [Links], [Machine] with [__contains__],
      [__getitem__], [__setitem__];
    - [rig/place_and_route/route/ner.py]: [concentric_hexagons], [ner_net],
      [copy_and_disconnect_tree] and the call [route] makes to [ner_net].

    Python integers are [Z]; [%] and [//] are floor modulo and floor
    division, which is what [Z.modulo] and [Z.div] compute for a non-zero
    divisor, and they raise [ZeroDivisionError] for a zero divisor.  Python
    exceptions are values of [exn] carried by [result].  Python floats are
    the rationals that are doubles, and an operation on them rounds its
    exact result to the nearest double.

    The embedding comes first, then the notions the properties are stated
    with, then the properties. *)

From Stdlib Require Import ZArith QArith Lia Lqa List Sorted.
From stdpp Require Import base gmap list.

Close Scope Q_scope.
Local Open Scope Z_scope.

(** ** Exceptions and the error monad *)

Inductive exn : Type :=
| ZeroDivisionError
| IndexError
| KeyError
| ValueError
| OverflowError
| AssertionError
| MachineHasDisconnectedSubregion.

Inductive result (A : Type) : Type :=
| Ok (a : A)
| Raise (e : exn).
Arguments Ok {A} a.
Arguments Raise {A} e.

#[export] Instance result_ret : MRet result := fun A a => Ok a.
#[export] Instance result_bind : MBind result := fun A B f m =>
  match m with
  | Ok a => f a
  | Raise e => Raise e
  end.

(** Python's [a % b] on integers. *)
Definition pymod (a b : Z) : result Z :=
  if decide (b = 0) then Raise ZeroDivisionError else Ok (a mod b).

(** Python's [a // b] on integers. *)
Definition pyfloordiv (a b : Z) : result Z :=
  if decide (b = 0) then Raise ZeroDivisionError else Ok (a / b).

(** Python's [range(a, b)]. *)
Definition range (a b : Z) : list Z :=
  map (fun i => a + Z.of_nat i) (seq 0 (Z.to_nat (b - a))).

(** ** Sorting and selection with a key

    [sorted(l, key=f)] computes the key of every element once, in list
    order, and sorts stably; [reverse=True] keeps the original order of
    elements with equal keys.  [min(l, key=f)] returns the first element
    whose key is minimal.  [precedes k1 k2] says that key [k1] sorts
    strictly before key [k2]. *)

Fixpoint insert_keyed {K A : Type} (precedes : K → K → bool)
    (x : K * A) (l : list (K * A)) : list (K * A) :=
  match l with
  | [] => [x]
  | y :: l' =>
      if precedes (fst y) (fst x) then y :: insert_keyed precedes x l'
      else x :: y :: l'
  end.

Definition sort_keyed {K A : Type} (precedes : K → K → bool)
    (l : list (K * A)) : list (K * A) :=
  foldr (insert_keyed precedes) [] l.

Fixpoint min_keyed {K A : Type} (precedes : K → K → bool)
    (best : K * A) (l : list (K * A)) : K * A :=
  match l with
  | [] => best
  | y :: l' => min_keyed precedes (if precedes (fst y) (fst best) then y else best) l'
  end.

Definition Qgt_bool (a b : Q) : bool := negb (Qle_bool a b).
Definition Qlt_bool (a b : Q) : bool := negb (Qle_bool b a).

(** ** Floating point numbers

    A Python float is a double: a rational [m * 2 ^ u] with an integer
    [m] of at most 53 bits and [u] no less than [-1074].  The result of
    an operation is its exact result rounded to the nearest double, and
    to the one with the even [m] of two doubles equally near. *)

(** The integer nearest to [p / d], for [0 < d]; of two integers equally
    near, the even one. *)
Definition round_half_even (p d : Z) : Z :=
  let q := p / d in
  let r := p mod d in
  if 2 * r <? d then q
  else if d <? 2 * r then q + 1
  else if Z.even q then q else q + 1.

(** For [0 < p] and [0 < d], the exponent [e] with
    [2 ^ e <= p / d < 2 ^ (e + 1)]. *)
Definition floor_log2 (p d : Z) : Z :=
  let e := Z.log2 p - Z.log2 d in
  if (if 0 <=? e then p <? d * 2 ^ e else p * 2 ^ (- e) <? d)
  then e - 1 else e.

(** The double nearest to [p / d], for [0 < p] and [0 < d]: the last of
    the 53 bits of its significand is worth [2 ^ u]. *)
Definition float_round_pos (p d : Z) : Q :=
  let u := Z.max (floor_log2 p d - 52) (-1074) in
  if 0 <=? u then inject_Z (round_half_even p (d * 2 ^ u) * 2 ^ u)
  else Qmake (round_half_even (p * 2 ^ (- u)) d) (Z.to_pos (2 ^ (- u))).

(** The double nearest to a rational. *)
Definition float_round (q : Q) : Q :=
  let p := Qnum q in
  let d := Zpos (Qden q) in
  if p =? 0 then 0%Q
  else if 0 <? p then float_round_pos p d
  else Qopp (float_round_pos (- p) d).

(** [float(m)] for an integer [m]: the nearest double, and
    [OverflowError] when that is [2 ^ 1024] or more in magnitude. *)
Definition float_of_int (m : Z) : result Q :=
  let f := float_round (inject_Z m) in
  if Qle_bool (inject_Z (2 ^ 1024)) f || Qle_bool f (inject_Z (- 2 ^ 1024))
  then Raise OverflowError else Ok f.

(** The sum of two doubles, where it is finite. *)
Definition float_add (a b : Q) : Q := float_round (a + b).

(** [m + r] for an integer [m] and a float [r]: Python converts [m] to a
    float and adds the floats. *)
Definition int_add_float (m : Z) (r : Q) : result Q :=
  f ← float_of_int m; mret (float_add f r).

(** ** The random number generator

    [random.random()] returns a number in [[0, 1)] and
    [random.randint(a, b)] an integer in [[a, b]].  The generator is an
    oracle giving the outcome of the [n]-th draw; the state threaded
    through the code is the number of draws made so far.  The floats
    [random.random()] returns are the multiples of [2 ^ -53] in
    [[0, 1)]. *)

Record Rng : Type := {
  rng_random : nat → Q;
  rng_randint : nat → Z → Z → Z
}.

Definition random_ok (g : Rng) : Prop :=
  ∀ n, (0 <= rng_random g n)%Q ∧ (rng_random g n < 1)%Q.

(** Every draw of [random.random()] is a double [k * 2 ^ -53] with
    [0 <= k < 2 ^ 53]. *)
Definition random_double (g : Rng) : Prop :=
  ∀ n, ∃ k : Z, 0 ≤ k < 2 ^ 53 ∧ (rng_random g n == k # 9007199254740992)%Q.

Definition randint_ok (g : Rng) : Prop :=
  ∀ n a b, a ≤ b → a ≤ rng_randint g n a b ≤ b.

Definition rng_ok (g : Rng) : Prop := random_ok g ∧ randint_ok g.

Definition Rand (A : Type) : Type := Rng → nat → result (A * nat).

#[export] Instance Rand_ret : MRet Rand := fun A a g n => Ok (a, n).
#[export] Instance Rand_bind : MBind Rand := fun A B f m g n =>
  match m g n with
  | Ok (a, n') => f a g n'
  | Raise e => Raise e
  end.

Definition lift {A : Type} (r : result A) : Rand A := fun g n =>
  match r with
  | Ok a => Ok (a, n)
  | Raise e => Raise e
  end.

Definition random : Rand Q := fun g n => Ok (rng_random g n, S n).

Definition randint (a b : Z) : Rand Z := fun g n => Ok (rng_randint g n a b, S n).

Fixpoint mapM_rand {A B : Type} (f : A → Rand B) (l : list A) : Rand (list B) :=
  match l with
  | [] => mret []
  | x :: l' => y ← f x; ys ← mapM_rand f l'; mret (y :: ys)
  end.

Fixpoint mapM_result {A B : Type} (f : A → result B) (l : list A) : result (list B) :=
  match l with
  | [] => mret []
  | x :: l' => y ← f x; ys ← mapM_result f l'; mret (y :: ys)
  end.

(** ** [rig/geometry.py] *)

Module Geometry.

(** [to_xyz]: lift a two-axis coordinate to three axes. *)
Definition to_xyz (xy : Z * Z) : Z * Z * Z :=
  let '(x, y) := xy in (x, y, 0).

(** [minimise_xyz] *)
Definition minimise_xyz (xyz : Z * Z * Z) : Z * Z * Z :=
  let '(x, y, z) := xyz in
  let m := Z.max (Z.min x y) (Z.min (Z.max x y) z) in
  (x - m, y - m, z - m).

(** [(d - s for s, d in zip(source, destination))] *)
Definition delta (source destination : Z * Z * Z) : Z * Z * Z :=
  let '(sx, sy, sz) := source in
  let '(dx, dy, dz) := destination in
  (dx - sx, dy - sy, dz - sz).

(** [shortest_mesh_path_length] *)
Definition shortest_mesh_path_length (source destination : Z * Z * Z) : Z :=
  let '(x, y, z) := delta source destination in
  Z.max (Z.max x y) z - Z.min (Z.min x y) z.

(** [shortest_mesh_path] *)
Definition shortest_mesh_path (source destination : Z * Z * Z) : Z * Z * Z :=
  minimise_xyz (delta source destination).

(** [shortest_torus_path_length] *)
Definition shortest_torus_path_length
    (source destination : Z * Z * Z) (width height : Z) : result Z :=
  let w := width in
  let h := height in
  let '(x, y, z) := delta source destination in
  let '(x, y) := (x - z, y - z) in
  x ← pymod x w;
  y ← pymod y h;
  mret (Z.min (Z.min (Z.min (Z.max x y)
                            (w - x + y))
                     (x + h - y))
              (Z.max (w - x) (h - y))).

(** [shortest_torus_path] *)
Definition shortest_torus_path
    (source destination : Z * Z * Z) (width height : Z) : Rand (Z * Z * Z) :=
  let w := width in
  let h := height in
  let '(sx, sy, sz) := source in
  let '(sx, sy) := (sx - sz, sy - sz) in
  let '(dx, dy, dz) := destination in
  dx ← lift (pymod (dx - dz - sx) w);
  dy ← lift (pymod (dy - dz - sy) h);
  let approaches :=
    [ (Z.max dx dy, (dx, dy, 0));
      (w - dx + dy, (- (w - dx), dy, 0));
      (dx + h - dy, (dx, - (h - dy), 0));
      (Z.max (w - dx) (h - dy), (- (w - dx), - (h - dy), 0)) ] in
  keyed ← mapM_rand
    (fun a => r ← random; k ← lift (int_add_float (fst a) r); mret (k, a))
    approaches;
  match keyed with
  | [] => lift (Raise ValueError)
  | first :: others =>
      let '(_, vector) := snd (min_keyed Qlt_bool first others) in
      let '(x, y, z) := minimise_xyz vector in
      if decide (Z.abs x >= height) then
        max_spirals ← lift (pyfloordiv x height);
        r ← randint (Z.min 0 max_spirals) (Z.max 0 max_spirals);
        let d := r * height in
        mret (x - d, y, z - d)
      else if decide (Z.abs y >= width) then
        max_spirals ← lift (pyfloordiv y width);
        r ← randint (Z.min 0 max_spirals) (Z.max 0 max_spirals);
        let d := r * width in
        mret (x, y - d, z - d)
      else
        mret (x, y, z)
  end.

(** The walk around the ring of one radius in [concentric_hexagons]:
    the inner two loops, from position [xy], yielding [r] coordinates for
    each of the six directions. *)
Fixpoint hexagon_edge (steps : list Z) (d : Z * Z) (xy : Z * Z) : list (Z * Z) * (Z * Z) :=
  match steps with
  | [] => ([], xy)
  | _ :: steps' =>
      let '(ys, xy') := hexagon_edge steps' d (fst xy + fst d, snd xy + snd d) in
      (xy :: ys, xy')
  end.

Fixpoint hexagon_ring (r : Z) (ds : list (Z * Z)) (xy : Z * Z) : list (Z * Z) * (Z * Z) :=
  match ds with
  | [] => ([], xy)
  | d :: ds' =>
      let '(ys, xy1) := hexagon_edge (range 0 r) d xy in
      let '(zs, xy2) := hexagon_ring r ds' xy1 in
      (ys ++ zs, xy2)
  end.

Fixpoint hexagon_layers (rs : list Z) (xy : Z * Z) : list (Z * Z) :=
  match rs with
  | [] => []
  | r :: rs' =>
      let xy := (fst xy, snd xy - 1) in
      let '(ys, xy') :=
        hexagon_ring r [(1, 1); (0, 1); (-1, 0); (-1, -1); (0, -1); (1, 0)] xy in
      ys ++ hexagon_layers rs' xy'
  end.

(** [concentric_hexagons]: the coordinates the generator yields, in order. *)
Definition concentric_hexagons (radius : Z) (start : Z * Z) : list (Z * Z) :=
  let '(x, y) := start in
  (x, y) :: hexagon_layers (range 1 (radius + 1)) (x, y).

End Geometry.


(** ** [rig/machine.py] *)

Module Machine.

(** [Links]: an [IntEnum]; [link_value] gives the integer of each member. *)
Inductive Links : Type :=
| east
| north_east
| north
| west
| south_west
| south.

Definition link_value (l : Links) : Z :=
  match l with
  | east => 0
  | north_east => 1
  | north => 2
  | west => 3
  | south_west => 4
  | south => 5
  end.

#[export] Instance Links_eq_dec : EqDecision Links.
Proof. solve_decision. Defined.

#[export] Instance Links_countable : Countable Links.
Proof.
  refine (inj_countable' link_value
    (fun v => if decide (v = 0) then east
              else if decide (v = 1) then north_east
              else if decide (v = 2) then north
              else if decide (v = 3) then west
              else if decide (v = 4) then south_west
              else south) _).
  intros []; reflexivity.
Defined.

(** [Machine]: the six slots of the class.  [resources] is the type of a
    resource dictionary [{resource_key: requirement, ...}]. *)
Record Machine (resources : Type) : Type := {
  width : Z;
  height : Z;
  chip_resources : resources;
  chip_resource_exceptions : gmap (Z * Z) resources;
  dead_chips : gset (Z * Z);
  dead_links : gset (Z * Z * Links)
}.
Arguments width {resources} _.
Arguments height {resources} _.
Arguments chip_resources {resources} _.
Arguments chip_resource_exceptions {resources} _.
Arguments dead_chips {resources} _.
Arguments dead_links {resources} _.

Section Methods.
Context {resources : Type}.

(** [Machine.__contains__] for a two-tuple [(x, y)]. *)
Definition contains_chip (self : Machine resources) (chip : Z * Z) : bool :=
  let '(x, y) := chip in
  bool_decide (0 ≤ x ∧ x < width self)
  && bool_decide (0 ≤ y ∧ y < height self)
  && bool_decide ((x, y) ∉ dead_chips self).

(** [Machine.__contains__] for a three-tuple [(x, y, link)]. *)
Definition contains_link (self : Machine resources) (xyl : Z * Z * Links) : bool :=
  let '(x, y, link) := xyl in
  contains_chip self (x, y) && bool_decide ((x, y, link) ∉ dead_links self).

(** [Machine.__getitem__] *)
Definition getitem (self : Machine resources) (xy : Z * Z) : result resources :=
  if negb (contains_chip self xy) then Raise IndexError
  else Ok (default (chip_resources self) (chip_resource_exceptions self !! xy)).

(** [Machine.__setitem__]: the machine after the assignment. *)
Definition setitem (self : Machine resources) (xy : Z * Z) (r : resources)
    : result (Machine resources) :=
  if negb (contains_chip self xy) then Raise IndexError
  else Ok {| width := width self;
             height := height self;
             chip_resources := chip_resources self;
             chip_resource_exceptions := <[xy := r]> (chip_resource_exceptions self);
             dead_chips := dead_chips self;
             dead_links := dead_links self |}.

End Methods.

End Machine.

(** ** [rig/place_and_route/route/utils.py] *)

Module RouteUtils.
Import Machine.

(** [x %= width] under [if width is not None]. *)
Definition wrap (v : Z) (bound : option Z) : result Z :=
  match bound with
  | None => Ok v
  | Some w => pymod v w
  end.

(** The three-way branch on [dimension] in the inner loop of
    [longest_dimension_first]. *)
Definition advance (dimension : nat) (sign : Z) (xy : Z * Z) : Z * Z :=
  let '(x, y) := xy in
  match dimension with
  | 0%nat => (x + sign, y)
  | 1%nat => (x, y + sign)
  | 2%nat => (x - sign, y - sign)
  | _ => (x, y)
  end.

(** The inner loop [for _ in range(abs(magnitude))], from position [xy]:
    the positions yielded and the position at the end. *)
Fixpoint ldf_hops (steps : list Z) (dimension : nat) (sign : Z)
    (width height : option Z) (xy : Z * Z) : result (list (Z * Z) * (Z * Z)) :=
  match steps with
  | [] => Ok ([], xy)
  | _ :: steps' =>
      let '(x, y) := advance dimension sign xy in
      x ← wrap x width;
      y ← wrap y height;
      '(ys, xy') ← ldf_hops steps' dimension sign width height (x, y);
      mret ((x, y) :: ys, xy')
  end.

(** The outer loop over the sorted [(dimension, magnitude)] pairs, with
    its [break] at the first zero magnitude. *)
Fixpoint ldf_walk (dims : list (nat * Z)) (width height : option Z)
    (xy : Z * Z) : result (list (Z * Z) * (Z * Z)) :=
  match dims with
  | [] => Ok ([], xy)
  | (dimension, magnitude) :: dims' =>
      if decide (magnitude = 0) then Ok ([], xy)
      else
        let sign := if decide (magnitude > 0) then 1 else -1 in
        '(ys, xy1) ← ldf_hops (range 0 (Z.abs magnitude)) dimension sign width height xy;
        '(zs, xy2) ← ldf_walk dims' width height xy1;
        mret (ys ++ zs, xy2)
  end.

(** [sorted(enumerate(vector), key=lambda x: abs(x[1]) + random.random(),
    reverse=True)] *)
Definition ldf_order (vector : Z * Z * Z) : Rand (list (nat * Z)) :=
  let '(vx, vy, vz) := vector in
  keyed ← mapM_rand
    (fun x : nat * Z =>
       r ← random; k ← lift (int_add_float (Z.abs (snd x)) r); mret (k, x))
    [(0%nat, vx); (1%nat, vy); (2%nat, vz)];
  mret (map snd (sort_keyed Qgt_bool keyed)).

(** [longest_dimension_first]: the positions the generator yields, in
    order.  [None] for [width] or [height] is Python's [None]. *)
Definition longest_dimension_first (vector : Z * Z * Z) (start : Z * Z)
    (width height : option Z) : Rand (list (Z * Z)) :=
  dims ← ldf_order vector;
  '(ys, _) ← lift (ldf_walk dims width height start);
  mret ys.

(** The condition of the set comprehension in [links_between], with the
    short-circuit evaluation of [and]. *)
Definition link_connects {resources : Type} (a b : Z * Z)
    (machine : Machine resources) (link : Links) (d : Z * Z) : result bool :=
  let '(ax, ay) := a in
  let '(bx, by_) := b in
  let '(dx, dy) := d in
  x ← pymod (ax + dx) (width machine);
  if negb (bool_decide (x = bx)) then mret false
  else
    y ← pymod (ay + dy) (height machine);
    if negb (bool_decide (y = by_)) then mret false
    else mret (contains_link machine (ax, ay, link)).

Fixpoint links_between_loop {resources : Type} (a b : Z * Z)
    (machine : Machine resources) (candidates : list (Links * (Z * Z)))
    : result (gset Links) :=
  match candidates with
  | [] => Ok ∅
  | (link, d) :: candidates' =>
      keep ← link_connects a b machine link d;
      rest ← links_between_loop a b machine candidates';
      mret (if keep : bool then {[ link ]} ∪ rest else rest)
  end.

(** [links_between] *)
Definition links_between {resources : Type} (a b : Z * Z)
    (machine : Machine resources) : result (gset Links) :=
  links_between_loop a b machine
    [ (east, (1, 0)); (north_east, (1, 1)); (north, (0, 1));
      (west, (-1, 0)); (south_west, (-1, -1)); (south, (0, -1)) ].

End RouteUtils.

(** ** [rig/place_and_route/route/ner.py]

    [RoutingTree] objects are mutable and shared: [ner_net] keeps every
    node in the dictionary [route] and adds it to the [children] set of
    other nodes.  The objects live in a store, a list indexed by address;
    a node's [children] is the set of addresses of its child objects, and
    a dictionary from chips to nodes holds addresses. *)

Module Ner.
Import Geometry Machine RouteUtils.

(** [concentric_hexagons]: [ner.py] repeats the generator of
    [geometry.py] line for line. *)
Definition concentric_hexagons (radius : Z) (start : Z * Z) : list (Z * Z) :=
  let '(x, y) := start in
  (x, y) :: hexagon_layers (range 1 (radius + 1)) (x, y).

(** Modelled from the spec: the class [RoutingTree]
    ([rig/place_and_route/routing_tree.py] is not among the sources): a
    node at some chip with the set of its children.  [ner.py] creates a
    node with [RoutingTree(chip)], reads [node.chip] and adds to
    [node.children]; the set holds the addresses of the child objects. *)
Record RoutingTree : Type := {
  chip : Z * Z;
  children : gset nat
}.

(** [RoutingTree(chip)]: allocate a node without children. *)
Definition new_node (store : list RoutingTree) (c : Z * Z) : list RoutingTree * nat :=
  (store ++ [ {| chip := c; children := ∅ |} ], length store).

(** [parent.children.add(child)] *)
Definition add_child (store : list RoutingTree) (parent child : nat) : list RoutingTree :=
  alter (fun n => {| chip := chip n; children := {[ child ]} ∪ children n |}) parent store.

(** The key of [sorted(destinations, key=...)] in [ner_net]. *)
Definition destination_key (source : Z * Z) (width height : Z) (wrap_around : bool)
    (destination : Z * Z) : result Z :=
  if negb wrap_around then
    Ok (shortest_mesh_path_length (to_xyz source) (to_xyz destination))
  else
    shortest_torus_path_length (to_xyz source) (to_xyz destination) width height.

Definition sorted_destinations (source : Z * Z) (destinations : list (Z * Z))
    (width height : Z) (wrap_around : bool) : result (list (Z * Z)) :=
  keyed ← mapM_result
    (fun d => k ← destination_key source width height wrap_around d; mret (k, d))
    destinations;
  mret (map snd (sort_keyed Z.ltb keyed)).

(** The search [for x, y in concentric_hexagons(radius, destination)] with
    its [break]: the neighbour found, or [None]. *)
Fixpoint find_neighbour (hexagons : list (Z * Z)) (route : gmap (Z * Z) nat)
    (destination : Z * Z) (width height : Z) (wrap_around : bool)
    : result (option (Z * Z)) :=
  match hexagons with
  | [] => Ok None
  | (x, y) :: hexagons' =>
      x ← (if wrap_around then pymod x width else Ok x);
      y ← (if wrap_around then pymod y height else Ok y);
      if bool_decide (is_Some (route !! (x, y)))
         && negb (bool_decide ((x, y) = destination))
      then Ok (Some (x, y))
      else find_neighbour hexagons' route destination width height wrap_around
  end.

(** The loop [for x, y in longest_dimension_first(...)] of [ner_net]. *)
Fixpoint attach_path (path : list (Z * Z)) (store : list RoutingTree)
    (route : gmap (Z * Z) nat) (last_node : nat)
    : list RoutingTree * gmap (Z * Z) nat :=
  match path with
  | [] => (store, route)
  | xy :: path' =>
      let '(store, route, this_node) :=
        match route !! xy with
        | Some this_node => (store, route, this_node)
        | None =>
            let '(store, this_node) := new_node store xy in
            (store, <[xy := this_node]> route, this_node)
        end in
      attach_path path' (add_child store last_node this_node) route this_node
  end.

(** [route[key]] *)
Definition getitem_route (route : gmap (Z * Z) nat) (key : Z * Z) : result nat :=
  match route !! key with
  | Some node => Ok node
  | None => Raise KeyError
  end.

(** The body of the loop over the sorted destinations, given the
    neighbour to route from. *)
Definition route_from (neighbour : Z * Z) (width height : Z) (wrap_around : bool)
    (store : list RoutingTree) (route : gmap (Z * Z) nat) (destination : Z * Z)
    : Rand (list RoutingTree * gmap (Z * Z) nat) :=
  vector ← (if wrap_around then
              shortest_torus_path (to_xyz neighbour) (to_xyz destination) width height
            else
              mret (shortest_mesh_path (to_xyz neighbour) (to_xyz destination)));
  last_node ← lift (getitem_route route neighbour);
  path ← longest_dimension_first vector neighbour (Some width) (Some height);
  mret (attach_path path store route last_node).

Fixpoint ner_loop (source : Z * Z) (width height : Z) (wrap_around : bool)
    (radius : Z) (destinations : list (Z * Z))
    (store : list RoutingTree) (route : gmap (Z * Z) nat)
    : Rand (list RoutingTree * gmap (Z * Z) nat) :=
  match destinations with
  | [] => mret (store, route)
  | destination :: destinations' =>
      found ← lift (find_neighbour (concentric_hexagons radius destination)
                      route destination width height wrap_around);
      let neighbour := default source found in
      '(store, route) ← route_from neighbour width height wrap_around
                          store route destination;
      ner_loop source width height wrap_around radius destinations' store route
  end.

(** [ner_net].  [wrap_around] and [radius] are keyword arguments,
    [None] when the caller leaves them out.  The result is the address of
    the root, the dictionary [route] and the store of nodes. *)
Definition ner_net (source : Z * Z) (destinations : list (Z * Z))
    (width height : Z) (wrap_around : option bool) (radius : option Z)
    : Rand (nat * gmap (Z * Z) nat * list RoutingTree) :=
  let wrap_around := default false wrap_around in
  let radius := default 10 radius in
  let '(store, root) := new_node [] source in
  let route : gmap (Z * Z) nat := {[ source := root ]} in
  order ← lift (sorted_destinations source destinations width height wrap_around);
  '(store, route) ← ner_loop source width height wrap_around radius order store route;
  root ← lift (getitem_route route source);
  mret (root, route, store).

(** The state of the loop of [copy_and_disconnect_tree]. *)
Record CopyState : Type := {
  new_store : list RoutingTree;
  new_root : option nat;
  new_lookup : gmap (Z * Z) nat;
  broken_links : gset ((Z * Z) * (Z * Z))
}.

(** One iteration of [while to_visit] in [copy_and_disconnect_tree], for
    the queue entry [(new_parent, old_node)]: the state after it and the
    node that becomes the parent of the copies of [old_node]'s children.
    The statement [assert new_parent is not None] is executed, as Python
    does unless it is run with [-O].  The outer [option] is [None] where
    an address is not in the store. *)
Definition copy_visit {resources : Type} (machine : Machine resources)
    (new_parent : option nat) (old_node : RoutingTree) (st : CopyState)
    : option (result (CopyState * nat)) :=
  let created : result (list RoutingTree * gmap (Z * Z) nat * nat) :=
    if contains_chip machine (chip old_node) then
      let '(store, node) := new_node (new_store st) (chip old_node) in
      Ok (store, <[chip old_node := node]> (new_lookup st), node)
    else
      match new_parent with
      | None => Raise AssertionError
      | Some parent => Ok (new_store st, new_lookup st, parent)
      end in
  match created with
  | Raise e => Some (Raise e)
  | Ok (store, lookup, node) =>
      match new_parent with
      | None =>
          Some (Ok ({| new_store := store; new_root := Some node;
                       new_lookup := lookup; broken_links := broken_links st |}, node))
      | Some parent =>
          if decide (node = parent) then
            Some (Ok ({| new_store := store; new_root := new_root st;
                         new_lookup := lookup; broken_links := broken_links st |}, node))
          else
            match store !! parent, store !! node with
            | Some p, Some n =>
                match links_between (chip p) (chip n) machine with
                | Raise e => Some (Raise e)
                | Ok links =>
                    if decide (links ≠ ∅) then
                      Some (Ok ({| new_store := add_child store parent node;
                                   new_root := new_root st;
                                   new_lookup := lookup;
                                   broken_links := broken_links st |}, node))
                    else
                      Some (Ok ({| new_store := store;
                                   new_root := new_root st;
                                   new_lookup := lookup;
                                   broken_links :=
                                     {[ (chip p, chip n) ]} ∪ broken_links st |}, node))
                end
            | _, _ => None
            end
      end
  end.

(** The loop [while to_visit].  The input can hold a cycle, on which the
    loop does not end: [fuel] bounds the number of iterations and the
    result is [None] when it runs out. *)
Fixpoint copy_loop {resources : Type} (fuel : nat) (old : list RoutingTree)
    (machine : Machine resources) (to_visit : list (option nat * nat))
    (st : CopyState) : option (result CopyState) :=
  match to_visit with
  | [] => Some (Ok st)
  | (new_parent, old_addr) :: to_visit' =>
      match fuel with
      | O => None
      | S fuel' =>
          match old !! old_addr with
          | None => None
          | Some old_node =>
              match copy_visit machine new_parent old_node st with
              | None => None
              | Some (Raise e) => Some (Raise e)
              | Some (Ok (st', node)) =>
                  copy_loop fuel' old machine
                    (to_visit' ++ map (fun child => (Some node, child))
                                      (elements (children old_node)))
                    st'
              end
          end
      end
  end.

(** [copy_and_disconnect_tree] on the tree at address [root] of the store
    [old]. *)
Definition copy_and_disconnect_tree {resources : Type} (fuel : nat)
    (old : list RoutingTree) (root : nat) (machine : Machine resources)
    : option (result CopyState) :=
  copy_loop fuel old machine [(None, root)]
    {| new_store := []; new_root := None; new_lookup := ∅; broken_links := ∅ |}.

(** The first statement of the loop over nets in [route]: the call of
    [ner_net] for one net.  [source] is [placements[net.source]],
    [sinks] the chips of [set(placements[sink] for sink in net.sinks)] in
    the order the set is iterated, [wrap_around] the value of
    [has_wrap_around_links(machine)], and [radius] the keyword argument of
    [route], [None] when the caller leaves it out. *)
Definition route_ner_net {resources : Type} (machine : Machine resources)
    (wrap_around : bool) (source : Z * Z) (sinks : list (Z * Z))
    (radius : option Z) : Rand (nat * gmap (Z * Z) nat * list RoutingTree) :=
  let radius := default 20 radius in
  ner_net source sinks (width machine) (height machine)
    (Some wrap_around) (Some radius).

End Ner.

(** ** Vocabulary of the properties

    The notions the statements below are written with, and the example
    data they are tried on. *)

Section Vocabulary.
Import Geometry Machine RouteUtils Ner.

(** The amount [minimise_xyz] subtracts is the median of the triple. *)
Definition median (x y z : Z) : Z := Z.max (Z.min x y) (Z.min (Z.max x y) z).

(** Number of non-zero components of a triple. *)
Definition nonzero_count (v : Z * Z * Z) : nat :=
  let '(x, y, z) := v in
  length (filter (fun c => c ≠ 0) [x; y; z]).

(** Two components are either not both non-zero or of opposite sign. *)
Definition opposite_if_both (a b : Z) : Prop :=
  a ≠ 0 → b ≠ 0 → a * b < 0.

(** The coordinate is outside the system or names a dead chip. *)
Definition out_of_bounds_or_dead {resources : Type} (M : Machine resources) (x y : Z) : Prop :=
  (x < 0 ∨ width M ≤ x) ∨ (y < 0 ∨ height M ≤ y) ∨ (x, y) ∈ dead_chips M.

#[export] Instance out_of_bounds_or_dead_dec {resources : Type}
    (M : Machine resources) (x y : Z) : Decision (out_of_bounds_or_dead M x y).
Proof. unfold out_of_bounds_or_dead. apply _. Defined.

(** A two-by-two machine whose chips offer three units of one resource. *)
Definition machine_2x2 : Machine nat :=
  {| width := 2; height := 2;
     chip_resources := 3%nat;
     chip_resource_exceptions := ∅;
     dead_chips := ∅;
     dead_links := ∅ |}.

(** Distance between two chips whose offset is [(dx, dy)], in hops. *)
Definition hexdist (dx dy : Z) : Z :=
  Z.max (Z.max dx dy) 0 - Z.min (Z.min dx dy) 0.

(** Position of the offset [(dx, dy)] on the ring of its distance, counted
    from the chip below the centre in the order the generator walks. *)
Definition ring_index (dx dy : Z) : Z :=
  let k := hexdist dx dy in
  if decide (dx - dy = k ∧ 0 ≤ dx < k) then dx
  else if decide (dx = k ∧ 0 ≤ dy < k) then k + dy
  else if decide (dy = k ∧ 0 < dx ≤ k) then 2 * k + (k - dx)
  else if decide (dy - dx = k ∧ - k < dx ≤ 0) then 3 * k - dx
  else if decide (dx = - k ∧ - k < dy ≤ 0) then 4 * k - dy
  else 5 * k + (dx + k).

(** Position of the chip [p] in the enumeration around the centre [c]. *)
Definition rank (c p : Z * Z) : Z :=
  let dx := fst p - fst c in
  let dy := snd p - snd c in
  let k := hexdist dx dy in
  if decide (k = 0) then 0 else 1 + 3 * k * (k - 1) + ring_index dx dy.

(** The six directions of the walk around a ring. *)
Definition ring_directions : list (Z * Z) :=
  [(1, 1); (0, 1); (-1, 0); (-1, -1); (0, -1); (1, 0)].

(** The coordinates of the ring of radius [k] around [start], as the
    generator yields them. *)
Definition ring (start : Z * Z) (k : Z) : list (Z * Z) :=
  fst (hexagon_ring k ring_directions (fst start, snd start - k)).

(** Keys in descending order. *)
Definition key_ge {A : Type} (a b : Q * A) : Prop := (fst b <= fst a)%Q.

(** The magnitude of an integer converts to a float: past
    [2 ^ 1024 - 2 ^ 970] the nearest double would be [2 ^ 1024]. *)
Definition fits_float (m : Z) : Prop := Z.abs m < 2 ^ 1024 - 2 ^ 970.

(** A wrap parameter is usable when it is [None] or a non-zero integer. *)
Definition bound_ok (bound : option Z) : Prop := bound ≠ Some 0.

(** A coordinate taken modulo a wrap parameter when one is given. *)
Definition norm (bound : option Z) (v : Z) : Z :=
  match bound with
  | None => v
  | Some w => v mod w
  end.

(** The change of [(x, y)] one step along a dimension makes. *)
Definition axis (dimension : nat) : Z * Z :=
  match dimension with
  | 0%nat => (1, 0)
  | 1%nat => (0, 1)
  | 2%nat => (-1, -1)
  | _ => (0, 0)
  end.

(** The number of steps a walk over [dims] makes when no dimension is
    skipped, and the change of [x] and of [y] it adds up to. *)
Definition total_hops (dims : list (nat * Z)) : Z :=
  foldr (fun p acc => Z.abs (snd p) + acc) 0 dims.

Definition displacement_x (dims : list (nat * Z)) : Z :=
  foldr (fun p acc => snd p * fst (axis (fst p)) + acc) 0 dims.

Definition displacement_y (dims : list (nat * Z)) : Z :=
  foldr (fun p acc => snd p * snd (axis (fst p)) + acc) 0 dims.

(** Dimensions of magnitude zero come after all the others. *)
Definition zeros_last (dims : list (nat * Z)) : Prop :=
  StronglySorted (fun a b => snd a = 0 → snd b = 0) dims.

(** A generator whose every draw is the smallest outcome. *)
Definition rng_zero : Rng :=
  {| rng_random := fun _ => 0%Q; rng_randint := fun _ a _ => a |}.

(** A generator whose draws decrease: [1/2], [1/3], [1/4], ... *)
Definition rng_descending : Rng :=
  {| rng_random := fun n => (1 # Pos.of_succ_nat (S n))%Q;
     rng_randint := fun _ a _ => a |}.

(** A generator whose first draw is the largest double below 1 and
    whose other draws are 0. *)
Definition rng_largest_first : Rng :=
  {| rng_random := fun n =>
       if decide (n = 0%nat) then (9007199254740991 # 9007199254740992)%Q else 0%Q;
     rng_randint := fun _ a _ => a |}.

(** A tree of one node, on a chip outside [machine_2x2]. *)
Definition lone_root : list RoutingTree :=
  [ {| chip := (5, 5); children := ∅ |} ].

(** Following the specification's words, "pure longest-dimension-first
    routing from the source": every destination, in the order given, is
    reached from the root of the tree along the longest-dimension-first
    walk of a shortest vector from the source to it; there is no
    neighbour search and no node is looked up by the source's chip.
    [hop] extends the tree by one position of a walk: the node on that
    chip, made now when the chip has none, becomes a child of the node
    before it. *)
Definition hop (tree : list RoutingTree * gmap (Z * Z) nat * nat) (xy : Z * Z)
    : list RoutingTree * gmap (Z * Z) nat * nat :=
  let '(store, route, previous) := tree in
  match route !! xy with
  | Some node => (add_child store previous node, route, node)
  | None =>
      let node := length store in
      (add_child (store ++ [ {| chip := xy; children := ∅ |} ]) previous node,
       <[xy := node]> route, node)
  end.

Definition ldf_from_source (source : Z * Z) (width height : Z) (wrap_around : bool)
    (root : nat) (store : list RoutingTree) (route : gmap (Z * Z) nat)
    (destination : Z * Z) : Rand (list RoutingTree * gmap (Z * Z) nat) :=
  vector ← (if wrap_around then
              shortest_torus_path (to_xyz source) (to_xyz destination) width height
            else
              mret (shortest_mesh_path (to_xyz source) (to_xyz destination)));
  walk ← longest_dimension_first vector source (Some width) (Some height);
  mret (fst (foldl hop (store, route, root) walk)).

Fixpoint ldf_loop (source : Z * Z) (width height : Z) (wrap_around : bool)
    (root : nat) (order : list (Z * Z))
    (store : list RoutingTree) (route : gmap (Z * Z) nat)
    : Rand (list RoutingTree * gmap (Z * Z) nat) :=
  match order with
  | [] => mret (store, route)
  | destination :: order' =>
      '(store, route) ← ldf_from_source source width height wrap_around root
                          store route destination;
      ldf_loop source width height wrap_around root order' store route
  end.

(** The tree starts as the root alone, at address 0 on the source's
    chip; the result is the root, the dictionary and the store. *)
Definition ldf_net (source : Z * Z) (order : list (Z * Z))
    (width height : Z) (wrap_around : bool)
    : Rand (nat * gmap (Z * Z) nat * list RoutingTree) :=
  let root := 0%nat in
  '(store, route) ← ldf_loop source width height wrap_around root order
                      [ {| chip := source; children := ∅ |} ] {[ source := root ]};
  mret (root, route, store).

(** The destinations are in the order of their distances from the
    source, closest first. *)
Definition closest_first (source : Z * Z) (width height : Z) (wrap_around : bool)
    (order : list (Z * Z)) : Prop :=
  ∃ distances,
    Forall2 (fun destination distance =>
               destination_key source width height wrap_around destination
               = Ok distance) order distances
    ∧ StronglySorted Z.le distances.

Definition key_le {A : Type} (a b : Z * A) : Prop := fst a ≤ fst b.

(** The chip is one of the [width] by [height] chips of the system. *)
Definition in_system (width height : Z) (xy : Z * Z) : Prop :=
  0 ≤ fst xy < width ∧ 0 ≤ snd xy < height.

(** Every key of the dictionary leads to a node on the chip of the key. *)
Definition lookup_consistent (store : list RoutingTree)
    (route : gmap (Z * Z) nat) : Prop :=
  ∀ xy a, route !! xy = Some a →
    ∃ node, store !! a = Some node ∧ chip node = xy.

(** The node at address [child] is a child of two different nodes. *)
Definition two_parents (store : list RoutingTree) (child : nat) : Prop :=
  ∃ p1 p2 n1 n2,
    p1 ≠ p2 ∧ store !! p1 = Some n1 ∧ store !! p2 = Some n2
    ∧ child ∈ children n1 ∧ child ∈ children n2.

End Vocabulary.

(** ** The functions on concrete inputs *)

Section Examples.
Import Geometry Machine RouteUtils Ner.

Example minimise_xyz_2_1_0 : minimise_xyz (2, 1, 0) = (1, 0, -1).
Proof. reflexivity. Qed.

Example torus_length_wrap_x :
  shortest_torus_path_length (0, 0, 0) (7, 0, 0) 8 8 = Ok 1.
Proof. reflexivity. Qed.

Example torus_length_diagonal :
  shortest_torus_path_length (0, 0, 0) (4, 4, 0) 8 8 = Ok 4.
Proof. reflexivity. Qed.

Example torus_length_zero_width :
  shortest_torus_path_length (0, 0, 0) (1, 0, 0) 0 8 = Raise ZeroDivisionError.
Proof. reflexivity. Qed.

Example concentric_hexagons_1 :
  Geometry.concentric_hexagons 1 (1, 0)
  = [(1, 0); (1, -1); (2, 0); (2, 1); (1, 1); (0, 0); (0, -1)].
Proof. reflexivity. Qed.

Example ldf_tie_x_first :
  longest_dimension_first (1, -1, 0) (2, 2) (Some 8) (Some 8) rng_descending 0%nat
  = Ok ([(3, 2); (3, 1)], 3%nat).
Proof. reflexivity. Qed.

Example ldf_wraps :
  longest_dimension_first (0, 0, -2) (7, 7) (Some 8) (Some 8) rng_zero 0%nat
  = Ok ([(0, 0); (1, 1)], 3%nat).
Proof. reflexivity. Qed.

Example ldf_zero_width :
  longest_dimension_first (1, 0, 0) (0, 0) (Some 0) None rng_zero 0%nat
  = Raise ZeroDivisionError.
Proof. reflexivity. Qed.

(** The key [1 + (1 - 2 ^ -53)] of the x axis rounds to [2.0], the key of
    the y axis: the sort keeps the two in their order, x first. *)
Example ldf_rounded_tie :
  longest_dimension_first (1, 2, 0) (0, 0) None None rng_largest_first 0%nat
  = Ok ([(1, 0); (1, 1); (1, 2)], 3%nat).
Proof. vm_compute. reflexivity. Qed.

Example ldf_too_large_for_float :
  longest_dimension_first (10 ^ 400, 0, 0) (0, 0) None None rng_zero 0%nat
  = Raise OverflowError.
Proof. vm_compute. reflexivity. Qed.

Example float_of_int_largest :
  float_of_int (2 ^ 1024 - 2 ^ 970 - 1) = Ok (inject_Z (2 ^ 1024 - 2 ^ 971)).
Proof. vm_compute. reflexivity. Qed.

Example getitem_outside : getitem machine_2x2 (2, 0) = Raise IndexError.
Proof. reflexivity. Qed.

Example getitem_default : getitem machine_2x2 (1, 1) = Ok 3%nat.
Proof. reflexivity. Qed.

End Examples.

(** ** Properties of the geometry primitives *)

Section GeometryFacts.
Import Geometry.

Lemma minimise_xyz_eq x y z :
  minimise_xyz (x, y, z) = (x - median x y z, y - median x y z, z - median x y z).
Proof. reflexivity. Qed.

(** C4: [minimise_xyz (x, y, z)] subtracts
    [m = max (min x y) (min (max x y) z)] from every component; the
    result has at most two non-zero components, and any two non-zero
    components of it have opposite signs. *)
Theorem minimise_xyz_canonical (x y z : Z) :
  let m := Z.max (Z.min x y) (Z.min (Z.max x y) z) in
  let '(x', y', z') := minimise_xyz (x, y, z) in
  (x' = x - m ∧ y' = y - m ∧ z' = z - m)
  ∧ (nonzero_count (x', y', z') ≤ 2)%nat
  ∧ opposite_if_both x' y'
  ∧ opposite_if_both x' z'
  ∧ opposite_if_both y' z'.
Proof.
  cbn zeta. unfold minimise_xyz, opposite_if_both, nonzero_count.
  set (m := Z.max _ _).
  split; [done|].
  split.
  - assert (x - m = 0 ∨ y - m = 0 ∨ z - m = 0) as Hz by (subst m; lia).
    rewrite !filter_cons. simpl.
    repeat case_decide; simpl; lia.
  - subst m. repeat split; intros; nia.
Qed.

(** C1: on a torus of positive size the wrap-around path length never
    exceeds the mesh path length. *)
Theorem shortest_torus_le_mesh (s d : Z * Z * Z) (W H : Z) :
  0 < W → 0 < H →
  ∃ n, shortest_torus_path_length s d W H = Ok n
       ∧ n ≤ shortest_mesh_path_length s d.
Proof.
  intros HW HH.
  destruct s as [[sx sy] sz], d as [[dx dy] dz].
  unfold shortest_torus_path_length, shortest_mesh_path_length, delta, pymod.
  cbn -[Z.modulo Z.min Z.max].
  repeat (case_decide; [lia|]). cbn -[Z.modulo Z.min Z.max].
  eexists; split; [reflexivity|].
  set (a := dx - sx - (dz - sz)). set (b := dy - sy - (dz - sz)).
  pose proof (Z.mod_pos_bound a W HW) as Ha.
  pose proof (Z.mod_pos_bound b H HH) as Hb.
  pose proof (Z.div_mod a W ltac:(lia)) as Ea.
  pose proof (Z.div_mod b H ltac:(lia)) as Eb.
  set (X := a mod W) in *. set (Y := b mod H) in *.
  set (qa := a / W) in *. set (qb := b / H) in *.
  assert (dx - sx = a + (dz - sz)) as -> by (subst a; lia).
  assert (dy - sy = b + (dz - sz)) as -> by (subst b; lia).
  clearbody a b X Y qa qb.
  assert (Hqa : 0 ≤ a → 0 ≤ qa) by nia.
  assert (Hqa' : a < 0 → qa ≤ -1) by nia.
  assert (Hqb : 0 ≤ b → 0 ≤ qb) by nia.
  assert (Hqb' : b < 0 → qb ≤ -1) by nia.
  assert (HXa : 0 ≤ a → X ≤ a) by nia.
  assert (HXa' : a < 0 → W - X ≤ - a) by nia.
  assert (HYb : 0 ≤ b → Y ≤ b) by nia.
  assert (HYb' : b < 0 → H - Y ≤ - b) by nia.
  lia.
Qed.

Lemma shortest_torus_le_mesh_witness :
  0 < 8 ∧ 0 < 8 ∧
  ∃ n, shortest_torus_path_length (0, 0, 0) (7, 0, 0) 8 8 = Ok n
       ∧ n ≤ shortest_mesh_path_length (0, 0, 0) (7, 0, 0).
Proof.
  split; [lia|]. split; [lia|].
  apply (shortest_torus_le_mesh (0, 0, 0) (7, 0, 0) 8 8); lia.
Defined.

End GeometryFacts.

(** ** Properties of the machine model *)

Section MachineFacts.
Import Machine.
Context {resources : Type}.

Lemma contains_chip_false (M : Machine resources) (x y : Z) :
  contains_chip M (x, y) = false ↔ out_of_bounds_or_dead M x y.
Proof.
  unfold contains_chip, out_of_bounds_or_dead.
  rewrite !andb_false_iff, !bool_decide_eq_false.
  split.
  - intros [[Hx|Hy]|Hd]; [left; lia | right; left; lia | right; right].
    destruct (decide ((x, y) ∈ dead_chips M)); [done | contradiction].
  - intros [Hx|[Hy|Hd]]; [left; left; lia | left; right; lia | right; auto].
Qed.

Lemma contains_chip_true (M : Machine resources) (x y : Z) :
  contains_chip M (x, y) = true ↔ ¬ out_of_bounds_or_dead M x y.
Proof.
  rewrite <- contains_chip_false. destruct (contains_chip M (x, y)); split; congruence.
Qed.

(** C8: [M[(x, y)]] raises [IndexError] exactly when [x] is outside
    [[0, width)], or [y] is outside [[0, height)], or [(x, y)] is a dead
    chip; in every other case it returns the entry of
    [chip_resource_exceptions] for [(x, y)] when there is one and
    [chip_resources] when there is none. *)
Theorem getitem_lookup (M : Machine resources) (x y : Z) :
  (getitem M (x, y) = Raise IndexError ↔ out_of_bounds_or_dead M x y)
  ∧ getitem M (x, y) =
      if decide (out_of_bounds_or_dead M x y) then Raise IndexError
      else match chip_resource_exceptions M !! (x, y) with
           | Some r => Ok r
           | None => Ok (chip_resources M)
           end.
Proof.
  unfold getitem.
  destruct (contains_chip M (x, y)) eqn:E; simpl.
  - apply contains_chip_true in E. split.
    + split; [discriminate | contradiction].
    + destruct (decide _) as [?|_]; [contradiction|].
      by destruct (chip_resource_exceptions M !! (x, y)).
  - apply contains_chip_false in E. split.
    + done.
    + by destruct (decide _) as [_|?].
Qed.

(** C10: an override [M[(x, y)] = r] of a live chip succeeds; afterwards
    [M[(x, y)]] returns [r], the lookup of every other chip returns what
    it returned before, and [width], [height], [dead_chips] and
    [dead_links] are unchanged. *)
Theorem setitem_frame (M : Machine resources) (x y : Z) (r : resources) :
  contains_chip M (x, y) = true →
  ∃ M', setitem M (x, y) r = Ok M'
        ∧ getitem M' (x, y) = Ok r
        ∧ (∀ x' y', (x', y') ≠ (x, y) → getitem M' (x', y') = getitem M (x', y'))
        ∧ width M' = width M
        ∧ height M' = height M
        ∧ dead_chips M' = dead_chips M
        ∧ dead_links M' = dead_links M.
Proof.
  intros Hlive. unfold setitem. rewrite Hlive. simpl.
  eexists. split; [reflexivity|].
  split; [|split; [|done]].
  - unfold getitem.
    replace (contains_chip _ (x, y)) with true by (symmetry; exact Hlive).
    simpl. by rewrite lookup_insert_eq.
  - intros x' y' Hne. unfold getitem.
    replace (contains_chip _ (x', y')) with (contains_chip M (x', y')) by reflexivity.
    destruct (contains_chip M (x', y')); simpl; [|done].
    by rewrite lookup_insert_ne.
Qed.

End MachineFacts.

Lemma setitem_frame_witness :
  Machine.contains_chip machine_2x2 (1, 0) = true
  ∧ ∃ M', Machine.setitem machine_2x2 (1, 0) 7%nat = Ok M'
        ∧ Machine.getitem M' (1, 0) = Ok 7%nat
        ∧ (∀ x' y', (x', y') ≠ (1, 0) →
             Machine.getitem M' (x', y') = Machine.getitem machine_2x2 (x', y'))
        ∧ Machine.width M' = Machine.width machine_2x2
        ∧ Machine.height M' = Machine.height machine_2x2
        ∧ Machine.dead_chips M' = Machine.dead_chips machine_2x2
        ∧ Machine.dead_links M' = Machine.dead_links machine_2x2.
Proof.
  split; [reflexivity|].
  apply (setitem_frame machine_2x2 1 0 7%nat); reflexivity.
Defined.

(** ** Properties of [concentric_hexagons] *)

Section HexagonFacts.
Import Geometry.

Lemma range_nil a b : b ≤ a → range a b = [].
Proof. intros. unfold range. by replace (Z.to_nat (b - a)) with 0%nat by lia. Qed.

Lemma range_cons a b : a < b → range a b = a :: range (a + 1) b.
Proof.
  intros. unfold range.
  replace (Z.to_nat (b - a)) with (S (Z.to_nat (b - (a + 1)))) by lia.
  simpl. f_equal; [lia|].
  rewrite <- seq_shift, map_map. apply map_ext. intros; lia.
Qed.

Lemma range_app a b c : a ≤ b → b ≤ c → range a b ++ range b c = range a c.
Proof.
  intros Hab Hbc. remember (Z.to_nat (b - a)) as n eqn:En.
  revert a Hab En. induction n as [|n IH]; intros a Hab En.
  - assert (a = b) as -> by lia. by rewrite (range_nil b b) by lia.
  - rewrite (range_cons a b), (range_cons a c) by lia. simpl. f_equal.
    apply IH; lia.
Qed.

Lemma range_app_eq a b b' c :
  b = b' → a ≤ b → b ≤ c → range a b ++ range b' c = range a c.
Proof. intros <-. apply range_app. Qed.

Lemma length_range a b : length (range a b) = Z.to_nat (b - a).
Proof. unfold range. by rewrite length_map, length_seq. Qed.

Lemma NoDup_range a b : NoDup (range a b).
Proof.
  unfold range. apply NoDup_fmap_2; [|apply NoDup_seq].
  intros i j. lia.
Qed.

(** One edge of a ring: [n] coordinates from [xy] in direction [d]. *)
Lemma hexagon_edge_rank c steps d xy base :
  (∀ i, 0 ≤ i < Z.of_nat (length steps) →
        rank c (fst xy + i * fst d, snd xy + i * snd d) = base + i) →
  rank c <$> fst (hexagon_edge steps d xy)
    = range base (base + Z.of_nat (length steps))
  ∧ snd (hexagon_edge steps d xy)
    = (fst xy + Z.of_nat (length steps) * fst d,
       snd xy + Z.of_nat (length steps) * snd d).
Proof.
  revert xy base. induction steps as [|s steps IH]; intros [x y] base Hrank.
  - simpl. rewrite range_nil by lia. split; [done|]. f_equal; lia.
  - cbn [hexagon_edge fst snd].
    destruct (hexagon_edge steps d (x + fst d, y + snd d)) as [ys xy'] eqn:E.
    specialize (IH (x + fst d, y + snd d) (base + 1)).
    rewrite E in IH. cbn [fst snd length] in *.
    destruct IH as [IH1 IH2].
    { intros i Hi.
      replace (x + fst d + i * fst d) with (x + (i + 1) * fst d) by lia.
      replace (y + snd d + i * snd d) with (y + (i + 1) * snd d) by lia.
      rewrite Hrank; lia. }
    split.
    + rewrite fmap_cons, (range_cons base) by lia. f_equal.
      * transitivity (base + 0); [|lia].
        rewrite <- (Hrank 0) by lia.
        do 2 f_equal; lia.
      * rewrite IH1. f_equal; lia.
    + rewrite IH2. f_equal; lia.
Qed.

Lemma rank_on_ring c p k j :
  0 < k →
  hexdist (fst p - fst c) (snd p - snd c) = k →
  ring_index (fst p - fst c) (snd p - snd c) = j →
  rank c p = 1 + 3 * k * (k - 1) + j.
Proof.
  intros Hk Hd Hj. unfold rank. cbn zeta. rewrite Hd, Hj.
  case_decide; [lia | done].
Qed.

(** Discharge [rank c p = base + i] for a chip [p] on the ring of radius
    [k] whose index on the ring is [j]. *)
Ltac on_ring k j :=
  let i := fresh "i" in
  intros i ?; rewrite (rank_on_ring _ _ k (j i)); cbv beta;
  [ lia
  | lia
  | unfold hexdist; cbn [fst snd]; lia
  | unfold ring_index; cbn zeta; cbn [fst snd];
    match goal with
    | |- context [hexdist ?a ?b] =>
        replace (hexdist a b) with k by (unfold hexdist; lia)
    end;
    repeat case_decide; lia ].

(** Walk one edge of the ring of radius [k] in the goal, the edge whose
    first chip has rank [base]. *)
Ltac walk_edge c k base j R :=
  match goal with
  | |- context [hexagon_edge (range 0 k) ?d ?xy] =>
      let H := fresh "H" in
      pose proof (hexagon_edge_rank c (range 0 k) d xy base) as H;
      rewrite length_range in H;
      replace (Z.of_nat (Z.to_nat (k - 0))) with k in H by lia;
      destruct (hexagon_edge (range 0 k) d xy) as [? ?];
      cbn [fst snd] in H;
      destruct H as [R ->]; [ on_ring k j | ]
  end.

Lemma hexagon_ring_rank c k :
  0 < k →
  rank c <$> ring c k = range (1 + 3 * k * (k - 1)) (1 + 3 * k * (k + 1))
  ∧ snd (hexagon_ring k ring_directions (fst c, snd c - k)) = (fst c, snd c - k).
Proof.
  intros Hk. unfold ring. destruct c as [cx cy]. cbn [fst snd].
  unfold ring_directions. cbn [hexagon_ring].
  remember (1 + 3 * k * (k - 1)) as b eqn:Hb.
  walk_edge (cx, cy) k b (fun i : Z => i) R1.
  walk_edge (cx, cy) k (b + k) (fun i : Z => k + i) R2.
  walk_edge (cx, cy) k (b + 2 * k) (fun i : Z => 2 * k + i) R3.
  walk_edge (cx, cy) k (b + 3 * k) (fun i : Z => 3 * k + i) R4.
  walk_edge (cx, cy) k (b + 4 * k) (fun i : Z => 4 * k + i) R5.
  walk_edge (cx, cy) k (b + 5 * k) (fun i : Z => 5 * k + i) R6.
  cbn [fst snd]. split; [|f_equal; lia].
  rewrite !fmap_app, R1, R2, R3, R4, R5, R6, fmap_nil, app_nil_r.
  rewrite (range_app_eq (b + 4 * k) _ (b + 5 * k) _) by lia.
  rewrite (range_app_eq (b + 3 * k) _ (b + 4 * k) _) by lia.
  rewrite (range_app_eq (b + 2 * k) _ (b + 3 * k) _) by lia.
  rewrite (range_app_eq (b + k) _ (b + 2 * k) _) by lia.
  rewrite (range_app_eq b _ (b + k) _) by lia.
  f_equal; lia.
Qed.

Lemma hexagon_layers_rank c a n :
  1 ≤ a →
  hexagon_layers (range a (a + Z.of_nat n)) (fst c, snd c - (a - 1))
    = concat (ring c <$> range a (a + Z.of_nat n))
  ∧ rank c <$> hexagon_layers (range a (a + Z.of_nat n)) (fst c, snd c - (a - 1))
    = range (1 + 3 * a * (a - 1))
            (1 + 3 * (a + Z.of_nat n) * (a + Z.of_nat n - 1)).
Proof.
  revert a. induction n as [|n IH]; intros a Ha.
  - rewrite (range_nil a), range_nil by lia. done.
  - rewrite (range_cons a) by lia.
    replace (a + Z.of_nat (S n)) with (a + 1 + Z.of_nat n) by lia.
    cbn [hexagon_layers fst snd fmap list_fmap concat].
    replace (snd c - (a - 1) - 1) with (snd c - a) by lia.
    destruct (hexagon_ring_rank c a ltac:(lia)) as [Hring Hend].
    unfold ring in Hring |- *. unfold ring_directions in *.
    destruct (hexagon_ring a _ (fst c, snd c - a)) as [ys xy'].
    cbn [fst snd] in *. subst xy'.
    destruct (IH (a + 1) ltac:(lia)) as [IH1 IH2].
    replace (a + 1 - 1) with a in IH1, IH2 by lia.
    split.
    + by rewrite IH1.
    + rewrite fmap_app, Hring, IH2. apply range_app_eq; nia.
Qed.

(** C7: for a radius [r ≥ 0], [concentric_hexagons r start] yields
    [1 + 3 r (r + 1)] coordinates: [start], then the [6 k] coordinates of
    the ring of each radius [k = 1 .. r]; no coordinate is yielded twice.
    The generator of [ner.py] yields the same coordinates. *)
Theorem concentric_hexagons_count_distinct (r : Z) (start : Z * Z) :
  0 ≤ r →
  let hexagons := concentric_hexagons r start in
  length hexagons = Z.to_nat (1 + 3 * r * (r + 1))
  ∧ NoDup hexagons
  ∧ hexagons = start :: concat (ring start <$> range 1 (r + 1))
  ∧ (∀ k, 0 ≤ k → length (ring start k) = Z.to_nat (6 * k))
  ∧ Ner.concentric_hexagons r start = hexagons.
Proof.
  intros Hr hexagons.
  assert (Hrank : rank start <$> hexagons = range 0 (1 + 3 * r * (r + 1))).
  { subst hexagons. unfold concentric_hexagons. destruct start as [x y].
    destruct (hexagon_layers_rank (x, y) 1 (Z.to_nat r) ltac:(lia)) as [_ H].
    cbn [fst snd] in H.
    replace (1 + Z.of_nat (Z.to_nat r)) with (r + 1) in H by lia.
    replace (y - (1 - 1)) with y in H by lia.
    rewrite fmap_cons, H, (range_cons 0) by nia.
    f_equal.
    - unfold rank, hexdist. cbn [fst snd]. case_decide; lia.
    - f_equal; lia. }
  split; [|split; [|split; [|split]]].
  - rewrite <- (length_fmap (rank start)), Hrank, length_range. f_equal; lia.
  - apply (NoDup_fmap_1 (rank start)). rewrite Hrank. apply NoDup_range.
  - subst hexagons. unfold concentric_hexagons. destruct start as [x y]. f_equal.
    destruct (hexagon_layers_rank (x, y) 1 (Z.to_nat r) ltac:(lia)) as [H _].
    cbn [fst snd] in H.
    replace (1 + Z.of_nat (Z.to_nat r)) with (r + 1) in H by lia.
    replace (y - (1 - 1)) with y in H by lia.
    exact H.
  - intros k Hk. destruct (decide (k = 0)) as [->|Hne].
    + reflexivity.
    + destruct (hexagon_ring_rank start k ltac:(lia)) as [H _].
      rewrite <- (length_fmap (rank start)), H, length_range. f_equal; lia.
  - reflexivity.
Qed.

Lemma concentric_hexagons_count_distinct_witness :
  0 ≤ 2 ∧
  let hexagons := concentric_hexagons 2 (3, 4) in
  length hexagons = Z.to_nat (1 + 3 * 2 * (2 + 1))
  ∧ NoDup hexagons
  ∧ hexagons = (3, 4) :: concat (ring (3, 4) <$> range 1 (2 + 1))
  ∧ (∀ k, 0 ≤ k → length (ring (3, 4) k) = Z.to_nat (6 * k))
  ∧ Ner.concentric_hexagons 2 (3, 4) = hexagons.
Proof.
  split; [lia|].
  apply (concentric_hexagons_count_distinct 2 (3, 4)); lia.
Defined.

End HexagonFacts.

(** ** Properties of sorting with a key *)

Section SortFacts.
Context {K A : Type} (precedes : K → K → bool).

Lemma insert_keyed_perm (x : K * A) l : insert_keyed precedes x l ≡ₚ x :: l.
Proof.
  induction l as [|y l IH]; simpl; [done|].
  destruct (precedes (fst y) (fst x)); [|done].
  rewrite IH. apply Permutation_swap.
Qed.

Lemma sort_keyed_perm (l : list (K * A)) : sort_keyed precedes l ≡ₚ l.
Proof.
  induction l as [|x l IH]; simpl; [done|].
  unfold sort_keyed in *. simpl. by rewrite insert_keyed_perm, IH.
Qed.

End SortFacts.

Lemma Qgt_bool_true a b : Qgt_bool a b = true → (b <= a)%Q.
Proof.
  unfold Qgt_bool. rewrite negb_true_iff. intros H.
  destruct (Qlt_le_dec b a) as [Hlt|Hle]; [by apply Qlt_le_weak|].
  apply Qle_bool_iff in Hle. congruence.
Qed.

Lemma Qgt_bool_false a b : Qgt_bool a b = false → (a <= b)%Q.
Proof.
  unfold Qgt_bool. rewrite negb_false_iff. apply Qle_bool_iff.
Qed.

Lemma insert_keyed_desc {A : Type} (x : Q * A) l :
  StronglySorted key_ge l → StronglySorted key_ge (insert_keyed Qgt_bool x l).
Proof.
  induction 1 as [|y l Hl IH Hy]; simpl.
  - repeat constructor.
  - destruct (Qgt_bool (fst y) (fst x)) eqn:E.
    + constructor; [done|].
      rewrite insert_keyed_perm. constructor; [|done].
      by apply Qgt_bool_true.
    + apply Qgt_bool_false in E.
      constructor; [by constructor|].
      constructor; [done|].
      eapply Forall_impl; [exact Hy|].
      intros z Hz. unfold key_ge in *. eapply Qle_trans; eassumption.
Qed.

Lemma sort_keyed_desc {A : Type} (l : list (Q * A)) :
  StronglySorted key_ge (sort_keyed Qgt_bool l).
Proof.
  induction l as [|x l IH]; [constructor|].
  by apply insert_keyed_desc.
Qed.

(** ** Properties of the floating point operations *)

Section FloatFacts.

(** Rounding to the nearest integer does not go below the floor. *)
Lemma round_half_even_floor p d : p / d ≤ round_half_even p d.
Proof.
  unfold round_half_even. cbn zeta.
  repeat (case_match; try lia).
Qed.

(** An integer quotient is its own rounding. *)
Lemma round_half_even_exact m d : 0 < d → round_half_even (m * d) d = m.
Proof.
  intros Hd. unfold round_half_even. cbn zeta.
  rewrite Z.mod_mul, Z.div_mul by lia.
  destruct (2 * 0 <? d) eqn:E; [done|]. apply Z.ltb_ge in E. lia.
Qed.

(** [2 ^ floor_log2 p d] is at most [p / d], for an exponent that is not
    negative. *)
Lemma floor_log2_lower p d :
  0 < p → 0 < d → 0 ≤ floor_log2 p d → d * 2 ^ floor_log2 p d ≤ p.
Proof.
  intros Hp Hd. unfold floor_log2. cbn zeta.
  pose proof (Z.log2_spec p Hp) as [Lp _].
  pose proof (Z.log2_spec d Hd) as [_ Ld].
  pose proof (Z.log2_nonneg p). pose proof (Z.log2_nonneg d).
  set (lp := Z.log2 p) in *. set (ld := Z.log2 d) in *.
  destruct (0 <=? lp - ld) eqn:E0.
  - apply Z.leb_le in E0. destruct (p <? d * 2 ^ (lp - ld)) eqn:E1.
    + intros He.
      assert (2 ^ lp = 2 ^ (Z.succ ld) * 2 ^ (lp - ld - 1)) as Epow.
      { rewrite <- Z.pow_add_r by lia. f_equal. lia. }
      assert (0 < 2 ^ (lp - ld - 1)) by (apply Z.pow_pos_nonneg; lia).
      nia.
    + apply Z.ltb_ge in E1. intros _. exact E1.
  - apply Z.leb_gt in E0. destruct (p * 2 ^ (- (lp - ld)) <? d); lia.
Qed.

(** A quotient below 1 has a negative exponent. *)
Lemma floor_log2_below_one p d : 0 < p → p < d → floor_log2 p d ≤ -1.
Proof.
  intros Hp Hd. unfold floor_log2. cbn zeta.
  pose proof (Z.log2_le_mono p d ltac:(lia)) as Hl.
  destruct (decide (Z.log2 p - Z.log2 d = 0)) as [E|E].
  - rewrite E. simpl. rewrite Z.mul_1_r.
    destruct (p <? d) eqn:E1; [lia|]. apply Z.ltb_ge in E1. lia.
  - repeat case_match; lia.
Qed.

(** Rounding to a double is monotone at 1, which is a double. *)
Lemma float_round_ge_1 q : (1 <= q)%Q → (1 <= float_round q)%Q.
Proof.
  destruct q as [p d']. unfold Qle. cbn [Qnum Qden]. intros Hq.
  assert (Z.pos d' ≤ p) as Hpd by lia. clear Hq.
  unfold float_round. cbn [Qnum Qden].
  destruct (p =? 0) eqn:E0; [apply Z.eqb_eq in E0; lia|].
  destruct (0 <? p) eqn:E1; [|apply Z.ltb_ge in E1; lia].
  unfold float_round_pos. cbn zeta.
  set (d := Z.pos d') in *.
  set (e := floor_log2 p d).
  set (u := Z.max (e - 52) (-1074)).
  destruct (0 <=? u) eqn:Eu.
  - apply Z.leb_le in Eu.
    assert (1 ≤ round_half_even p (d * 2 ^ u) * 2 ^ u) as Hone.
    { pose proof (round_half_even_floor p (d * 2 ^ u)) as Hfl.
      assert (0 < 2 ^ u) by (apply Z.pow_pos_nonneg; lia).
      enough (1 ≤ p / (d * 2 ^ u)) by nia.
      apply Z.div_le_lower_bound; [subst d; nia|].
      rewrite Z.mul_1_r.
      destruct (decide (u = 0)) as [->|Hu]; [simpl; lia|].
      assert (u = e - 52) as Eue by lia.
      pose proof (floor_log2_lower p d ltac:(lia) ltac:(subst d; lia) ltac:(lia)) as Hlow.
      fold e in Hlow.
      assert (2 ^ e = 2 ^ u * 2 ^ 52) as Epow.
      { rewrite <- Z.pow_add_r by lia. f_equal. lia. }
      rewrite Epow in Hlow.
      assert (1 ≤ 2 ^ 52) by lia. subst d. nia. }
    rewrite Zle_Qle in Hone. exact Hone.
  - apply Z.leb_gt in Eu.
    assert (0 < 2 ^ (- u)) as Hpow by (apply Z.pow_pos_nonneg; lia).
    unfold Qle. cbn [Qnum Qden]. rewrite Z2Pos.id by lia.
    pose proof (round_half_even_floor (p * 2 ^ (- u)) d) as Hfl.
    enough (2 ^ (- u) ≤ p * 2 ^ (- u) / d) by lia.
    apply Z.div_le_lower_bound; [subst d; lia|]. nia.
Qed.

(** The doubles [k * 2 ^ -53] with [0 <= k < 2 ^ 53] are their own
    rounding. *)
Lemma float_round_exact (k : Z) (q : Q) :
  0 ≤ k < 2 ^ 53 → (q == k # 9007199254740992)%Q → (float_round q == q)%Q.
Proof.
  intros Hk. destruct q as [p d']. unfold Qeq. cbn [Qnum Qden]. intros Hq.
  unfold float_round. cbn [Qnum Qden].
  set (d := Z.pos d') in *. assert (0 < d) by (subst d; lia).
  destruct (p =? 0) eqn:E0; [apply Z.eqb_eq in E0; subst p; reflexivity|].
  apply Z.eqb_neq in E0.
  assert (0 < p ∧ p < d) as [Hp Hpd].
  { change (Z.pos 9007199254740992) with (2 ^ 53) in Hq. nia. }
  destruct (0 <? p) eqn:E1; [|apply Z.ltb_ge in E1; lia].
  unfold float_round_pos. cbn zeta.
  pose proof (floor_log2_below_one p d Hp Hpd) as He.
  set (e := floor_log2 p d) in *.
  set (u := Z.max (e - 52) (-1074)).
  assert (u ≤ -53) as Hu by lia.
  destruct (0 <=? u) eqn:Eu; [apply Z.leb_le in Eu; lia|].
  assert (2 ^ (- u) = 2 ^ 53 * 2 ^ (- u - 53)) as Epow.
  { rewrite <- Z.pow_add_r by lia. f_equal. lia. }
  assert (0 < 2 ^ (- u - 53)) by (apply Z.pow_pos_nonneg; lia).
  assert (p * 2 ^ (- u) = (k * 2 ^ (- u - 53)) * d) as Ep.
  { change (Z.pos 9007199254740992) with (2 ^ 53) in Hq. rewrite Epow. nia. }
  rewrite Ep, round_half_even_exact by done.
  unfold Qeq. cbn [Qnum Qden]. rewrite Z2Pos.id by lia. fold d. lia.
Qed.


(** Bounds on the rounding of a quotient, from bounds on the quotient. *)
Lemma round_half_even_le p d K :
  0 < d → 2 * p < (2 * K + 1) * d → round_half_even p d ≤ K.
Proof.
  intros Hd Hp. unfold round_half_even. cbn zeta.
  pose proof (Z.div_mod p d ltac:(lia)) as E.
  pose proof (Z.mod_pos_bound p d Hd) as Hr.
  repeat case_match; try nia.
Qed.

Lemma round_half_even_ge p d K :
  0 < d → Z.even K = true → (2 * K - 1) * d ≤ 2 * p → K ≤ round_half_even p d.
Proof.
  intros Hd HK Hp. unfold round_half_even. cbn zeta.
  pose proof (Z.div_mod p d ltac:(lia)) as E.
  pose proof (Z.mod_pos_bound p d Hd) as Hr.
  destruct (2 * (p mod d) <? d) eqn:E1; [apply Z.ltb_lt in E1; nia|].
  apply Z.ltb_ge in E1.
  destruct (d <? 2 * (p mod d)) eqn:E2; [apply Z.ltb_lt in E2; nia|].
  apply Z.ltb_ge in E2.
  destruct (Z.even (p / d)) eqn:E3; [|nia].
  destruct (decide (K ≤ p / d)); [done|].
  assert (p / d = K - 1) as Eq by nia.
  rewrite Eq in E3. replace (K - 1) with (Z.pred K) in E3 by lia.
  rewrite Z.even_pred in E3. rewrite <- Z.negb_even in E3. rewrite HK in E3. done.
Qed.

(** The exponent of a positive integer is its binary logarithm. *)
Lemma floor_log2_int m : 0 < m → floor_log2 m 1 = Z.log2 m.
Proof.
  intros Hm. unfold floor_log2. cbn zeta.
  change (Z.log2 1) with 0. rewrite Z.sub_0_r.
  pose proof (Z.log2_nonneg m). pose proof (Z.log2_spec m Hm) as [Hl _].
  destruct (0 <=? Z.log2 m) eqn:E0; [|apply Z.leb_gt in E0; lia].
  destruct (m <? 1 * 2 ^ Z.log2 m) eqn:E1; [apply Z.ltb_lt in E1; lia|done].
Qed.

(** The integers that convert to a double are those below
    [2 ^ 1024 - 2 ^ 970] in magnitude; from there on the nearest double
    would be [2 ^ 1024]. *)
Lemma float_of_int_fits m :
  0 ≤ m < 2 ^ 1024 - 2 ^ 970 → float_of_int m = Ok (float_round (inject_Z m)).
Proof.
  intros Hm. unfold float_of_int. cbn zeta.
  enough (Qle_bool (inject_Z (2 ^ 1024)) (float_round (inject_Z m)) = false
          ∧ Qle_bool (float_round (inject_Z m)) (inject_Z (- 2 ^ 1024)) = false)
    as [-> ->] by done.
  unfold float_round. cbn [inject_Z Qnum Qden].
  destruct (m =? 0) eqn:E0; [done|]. apply Z.eqb_neq in E0.
  destruct (0 <? m) eqn:E1; [|apply Z.ltb_ge in E1; lia].
  unfold float_round_pos. cbn zeta. rewrite floor_log2_int by lia.
  pose proof (Z.log2_spec m ltac:(lia)) as [Hl Hh].
  pose proof (Z.log2_nonneg m).
  set (e := Z.log2 m) in *.
  replace (Z.max (e - 52) (-1074)) with (e - 52) by lia.
  destruct (0 <=? e - 52) eqn:Eu.
  - apply Z.leb_le in Eu. rewrite Z.mul_1_l.
    assert (0 < 2 ^ (e - 52)) as Hpow by (apply Z.pow_pos_nonneg; lia).
    pose proof (round_half_even_floor m (2 ^ (e - 52))) as Hfl.
    assert (0 ≤ m / 2 ^ (e - 52)) by (apply Z.div_pos; lia).
    assert (round_half_even m (2 ^ (e - 52)) * 2 ^ (e - 52) < 2 ^ 1024) as Hlt.
    { destruct (decide (e ≤ 1022)) as [He|He].
      - assert (round_half_even m (2 ^ (e - 52)) ≤ 2 ^ 53) as HM.
        { apply round_half_even_le; [done|].
          replace (Z.succ e) with (53 + (e - 52)) in Hh by lia.
          rewrite Z.pow_add_r in Hh by lia. nia. }
        assert (2 ^ 53 * 2 ^ (e - 52) ≤ 2 ^ 1023).
        { rewrite <- Z.pow_add_r by lia. apply Z.pow_le_mono_r; lia. }
        assert (2 ^ 1023 < 2 ^ 1024) by (apply Z.pow_lt_mono_r; lia).
        nia.
      - assert (e = 1023) as ->.
        { destruct (decide (e ≤ 1023)); [lia|].
          assert (2 ^ 1024 ≤ 2 ^ e) by (apply Z.pow_le_mono_r; lia).
          assert (0 < 2 ^ 970) by (apply Z.pow_pos_nonneg; lia). lia. }
        change (1023 - 52) with 971.
        assert (round_half_even m (2 ^ 971) ≤ 2 ^ 53 - 1) as HM.
        { apply round_half_even_le; [done|].
          change (2 ^ 1024) with (2 ^ 54 * 2 ^ 970) in Hm.
          change (2 ^ 971) with (2 * 2 ^ 970).
          assert (0 < 2 ^ 970) by (apply Z.pow_pos_nonneg; lia).
          change (2 ^ 53) with 9007199254740992.
          change (2 ^ 54) with 18014398509481984 in Hm. lia. }
        change (2 ^ 1024) with (2 ^ 53 * 2 ^ 971).
        assert (0 < 2 ^ 971) by (apply Z.pow_pos_nonneg; lia).
        nia. }
    split.
    + destruct (Qle_bool _ _) eqn:E; [|done].
      apply Qle_bool_iff in E. rewrite <- Zle_Qle in E. lia.
    + destruct (Qle_bool _ _) eqn:E; [|done].
      apply Qle_bool_iff in E. rewrite <- Zle_Qle in E.
      assert (0 < 2 ^ 1024) by (apply Z.pow_pos_nonneg; lia). nia.
  - apply Z.leb_gt in Eu.
    assert (0 < 2 ^ (- (e - 52))) as Hpow by (apply Z.pow_pos_nonneg; lia).
    rewrite <- (Z.mul_1_r (m * 2 ^ (- (e - 52)))) at 1 2.
    rewrite round_half_even_exact by lia.
    assert (m < 2 ^ 52).
    { eapply Z.lt_le_trans; [exact Hh|]. apply Z.pow_le_mono_r; lia. }
    assert (2 ^ 52 < 2 ^ 1024) by (apply Z.pow_lt_mono_r; lia).
    split.
    + destruct (Qle_bool _ _) eqn:E; [|done].
      apply Qle_bool_iff in E. unfold Qle in E. cbn [inject_Z Qnum Qden] in E.
      rewrite Z2Pos.id in E by lia. nia.
    + destruct (Qle_bool _ _) eqn:E; [|done].
      apply Qle_bool_iff in E. unfold Qle in E. cbn [inject_Z Qnum Qden] in E.
      assert (0 < 2 ^ 1024) by (apply Z.pow_pos_nonneg; lia). nia.
Qed.

(** From [2 ^ 1024 - 2 ^ 970] on, the nearest double would be [2 ^ 1024]:
    the conversion raises [OverflowError]. *)
Lemma float_of_int_overflow m :
  2 ^ 1024 - 2 ^ 970 ≤ m → float_of_int m = Raise OverflowError.
Proof.
  intros Hm. unfold float_of_int. cbn zeta.
  assert (0 < 2 ^ 970) by (apply Z.pow_pos_nonneg; lia).
  assert (2 ^ 1023 ≤ m).
  { change (2 ^ 1024) with (2 * 2 ^ 1023) in Hm.
    assert (2 ^ 970 < 2 ^ 1023) by (apply Z.pow_lt_mono_r; lia). lia. }
  assert (0 < 2 ^ 1023) by (apply Z.pow_pos_nonneg; lia).
  enough (Qle_bool (inject_Z (2 ^ 1024)) (float_round (inject_Z m)) = true)
    as -> by done.
  apply Qle_bool_iff.
  unfold float_round. cbn [inject_Z Qnum Qden].
  destruct (m =? 0) eqn:E0; [apply Z.eqb_eq in E0; lia|].
  destruct (0 <? m) eqn:E1; [|apply Z.ltb_ge in E1; lia].
  unfold float_round_pos. cbn zeta. rewrite floor_log2_int by lia.
  pose proof (Z.log2_spec m ltac:(lia)) as [Hl Hh].
  assert (1023 ≤ Z.log2 m) as He by (apply Z.log2_le_pow2; lia).
  set (e := Z.log2 m) in *.
  replace (Z.max (e - 52) (-1074)) with (e - 52) by lia.
  destruct (0 <=? e - 52) eqn:Eu; [|apply Z.leb_gt in Eu; lia].
  rewrite Z.mul_1_l. rewrite <- Zle_Qle.
  assert (0 < 2 ^ (e - 52)) as Hpow by (apply Z.pow_pos_nonneg; lia).
  destruct (decide (e = 1023)) as [->|Hne].
  - change (1023 - 52) with 971 in *.
    assert (2 ^ 53 ≤ round_half_even m (2 ^ 971)) as HM.
    { apply round_half_even_ge; [done | done |].
      change (2 ^ 1024) with (2 ^ 54 * 2 ^ 970) in Hm.
      change (2 ^ 971) with (2 * 2 ^ 970).
      change (2 ^ 53) with 9007199254740992.
      change (2 ^ 54) with 18014398509481984 in Hm. lia. }
    change (2 ^ 1024) with (2 ^ 53 * 2 ^ 971). nia.
  - pose proof (round_half_even_floor m (2 ^ (e - 52))) as Hfl.
    assert (2 ^ e = 2 ^ 52 * 2 ^ (e - 52)) as Epow.
    { rewrite <- Z.pow_add_r by lia. f_equal. lia. }
    assert (2 ^ 52 ≤ m / 2 ^ (e - 52)).
    { apply Z.div_le_lower_bound; [done|]. lia. }
    assert (2 ^ 1024 ≤ 2 ^ e) by (apply Z.pow_le_mono_r; lia).
    nia.
Qed.

End FloatFacts.

(** ** Properties of [longest_dimension_first] *)

Section LdfFacts.
Import Geometry RouteUtils.

Lemma wrap_norm bound v : bound_ok bound → wrap v bound = Ok (norm bound v).
Proof.
  unfold bound_ok, wrap, norm, pymod. destruct bound as [w|]; [|done].
  intros Hw. case_decide; [congruence | done].
Qed.

Lemma norm_add_l bound u v : norm bound (norm bound u + v) = norm bound (u + v).
Proof. destruct bound; simpl; [apply Zplus_mod_idemp_l | done]. Qed.

Lemma norm_idem bound u : norm bound (norm bound u) = norm bound u.
Proof. destruct bound; simpl; [apply Zmod_mod | done]. Qed.

Lemma norm_congr_add bound u u' v :
  norm bound u = norm bound u' → norm bound (u + v) = norm bound (u' + v).
Proof. intros E. by rewrite <- norm_add_l, E, norm_add_l. Qed.

Lemma advance_axis dimension sign x y :
  advance dimension sign (x, y)
  = (x + sign * fst (axis dimension), y + sign * snd (axis dimension)).
Proof.
  destruct dimension as [|[|[|d]]]; simpl; f_equal; lia.
Qed.

Lemma total_hops_perm dims dims' : dims ≡ₚ dims' → total_hops dims = total_hops dims'.
Proof. induction 1; simpl in *; lia. Qed.

Lemma displacement_x_perm dims dims' :
  dims ≡ₚ dims' → displacement_x dims = displacement_x dims'.
Proof. induction 1; simpl in *; lia. Qed.

Lemma displacement_y_perm dims dims' :
  dims ≡ₚ dims' → displacement_y dims = displacement_y dims'.
Proof. induction 1; simpl in *; lia. Qed.

Lemma all_zero_totals dims :
  Forall (fun p : nat * Z => snd p = 0) dims →
  total_hops dims = 0 ∧ displacement_x dims = 0 ∧ displacement_y dims = 0.
Proof.
  induction 1 as [|p dims Hp _ IH]; simpl; [done|].
  destruct IH as (-> & -> & ->). rewrite Hp. done.
Qed.

(** The inner loop: [length steps] hops along one dimension. *)
Lemma ldf_hops_spec steps dimension sign width height x y :
  bound_ok width → bound_ok height →
  ∃ ys x' y',
    ldf_hops steps dimension sign width height (x, y) = Ok (ys, (x', y'))
    ∧ length ys = length steps
    ∧ norm width x'
      = norm width (x + Z.of_nat (length steps) * sign * fst (axis dimension))
    ∧ norm height y'
      = norm height (y + Z.of_nat (length steps) * sign * snd (axis dimension))
    ∧ ((ys = [] ∧ x' = x ∧ y' = y)
       ∨ (x' = norm width x' ∧ y' = norm height y' ∧ last ys = Some (x', y'))).
Proof.
  intros HW HH. revert x y.
  induction steps as [|s steps IH]; intros x y.
  - exists [], x, y. simpl. repeat split; try (f_equal; lia). by left.
  - cbn [ldf_hops]. rewrite advance_axis.
    rewrite (wrap_norm width) by done. cbn [mbind result_bind].
    rewrite (wrap_norm height) by done. cbn [mbind result_bind].
    set (x1 := norm width (x + sign * fst (axis dimension))).
    set (y1 := norm height (y + sign * snd (axis dimension))).
    destruct (IH x1 y1) as (ys & x' & y' & -> & Hlen & Hx & Hy & Hlast).
    exists ((x1, y1) :: ys), x', y'. cbn [mret result_ret].
    split; [done|]. split; [simpl; lia|].
    split; [|split].
    + rewrite Hx. subst x1. rewrite norm_add_l. f_equal. simpl length. lia.
    + rewrite Hy. subst y1. rewrite norm_add_l. f_equal. simpl length. lia.
    + right. destruct Hlast as [(-> & -> & ->)|(Hx' & Hy' & Hl)].
      * subst x1 y1. by rewrite !norm_idem.
      * split; [done|]. split; [done|].
        destruct ys; [done|]. exact Hl.
Qed.

(** The outer loop over dimensions sorted with the zeros last. *)
Lemma ldf_walk_spec dims width height x y :
  bound_ok width → bound_ok height → zeros_last dims →
  ∃ ys x' y',
    ldf_walk dims width height (x, y) = Ok (ys, (x', y'))
    ∧ Z.of_nat (length ys) = total_hops dims
    ∧ norm width x' = norm width (x + displacement_x dims)
    ∧ norm height y' = norm height (y + displacement_y dims)
    ∧ ((ys = [] ∧ x' = x ∧ y' = y)
       ∨ (x' = norm width x' ∧ y' = norm height y' ∧ last ys = Some (x', y'))).
Proof.
  intros HW HH Hz. revert x y.
  induction Hz as [|[d m] dims Hz IH Hrest]; intros x y.
  - exists [], x, y. simpl. repeat split; try (f_equal; lia). by left.
  - cbn [ldf_walk]. case_decide as Hm.
    + subst m. exists [], x, y.
      assert (Forall (fun p : nat * Z => snd p = 0) dims) as Hall.
      { eapply Forall_impl; [exact Hrest|]. simpl. auto. }
      destruct (all_zero_totals dims Hall) as (Ht & Hdx & Hdy).
      simpl. rewrite Ht, Hdx, Hdy.
      repeat split; try (f_equal; lia). by left.
    + set (sign := if decide (m > 0) then 1 else -1).
      destruct (ldf_hops_spec (range 0 (Z.abs m)) d sign width height x y HW HH)
        as (ys & x1 & y1 & -> & Hlen & Hx1 & Hy1 & Hlast1).
      cbn [mbind result_bind].
      destruct (IH x1 y1) as (zs & x' & y' & -> & Hlen' & Hx' & Hy' & Hlast').
      cbn [mbind result_bind mret result_ret].
      rewrite length_range in Hlen, Hx1, Hy1.
      assert (Z.of_nat (Z.to_nat (Z.abs m - 0)) * sign = m) as Hsign
        by (subst sign; case_decide; lia).
      rewrite Hsign in Hx1, Hy1.
      exists (ys ++ zs), x', y'.
      split; [done|]. split; [|split; [|split]].
      * rewrite length_app. simpl. lia.
      * rewrite Hx'. simpl.
        rewrite (norm_congr_add width x1 (x + m * fst (axis d))) by done.
        f_equal; lia.
      * rewrite Hy'. simpl.
        rewrite (norm_congr_add height y1 (y + m * snd (axis d))) by done.
        f_equal; lia.
      * right.
        assert (ys ≠ []) as Hys by (intros ->; simpl in Hlen; lia).
        destruct Hlast1 as [(-> & _)|(Ex1 & Ey1 & Hl1)]; [done|].
        destruct Hlast' as [(-> & -> & ->)|(Ex' & Ey' & Hl')].
        -- rewrite app_nil_r. done.
        -- split; [done|]. split; [done|].
           rewrite last_app, Hl'. done.
Qed.

(** Sorting by key, largest first, puts the dimensions of magnitude zero
    last when their keys are below 1 and the other keys are not. *)
Lemma desc_zeros_last (keyed : list (Q * (nat * Z))) :
  Forall (fun p => (snd (snd p) = 0 → (fst p < 1)%Q)
                   ∧ (snd (snd p) ≠ 0 → (1 <= fst p)%Q)) keyed →
  StronglySorted key_ge keyed →
  zeros_last (map snd keyed).
Proof.
  intros Hkeys Hsorted. unfold zeros_last.
  induction Hsorted as [|a l Hl IH Ha]; simpl; [constructor|].
  apply Forall_cons in Hkeys as [[Ka _] Hkeys].
  constructor; [by apply IH|].
  apply Forall_map. rewrite Forall_forall in Ha, Hkeys |- *.
  intros b Hb Hzero.
  destruct (Hkeys b Hb) as [_ Kb].
  specialize (Ha b Hb). unfold key_ge in Ha.
  destruct (decide (snd (snd b) = 0)) as [|Hne]; [done|].
  specialize (Ka Hzero). specialize (Kb Hne). exfalso. lra.
Qed.

(** The key [abs(magnitude) + random.random()] of a dimension is below 1
    when the magnitude is zero and at least 1 when it is not. *)
Lemma ldf_key (m : Z) (r f : Q) :
  (∃ k : Z, 0 ≤ k < 2 ^ 53 ∧ (r == k # 9007199254740992)%Q) →
  int_add_float (Z.abs m) r = Ok f →
  (m = 0 → (f < 1)%Q) ∧ (m ≠ 0 → (1 <= f)%Q).
Proof.
  intros (k & Hk & Hr). unfold int_add_float, float_add.
  destruct (float_of_int (Z.abs m)) as [F|e] eqn:EF; [|done].
  cbn [mbind result_bind mret result_ret]. intros [= <-].
  assert (0 <= r)%Q as Hr0.
  { rewrite Hr. unfold Qle. simpl. lia. }
  split.
  - intros ->. change (Z.abs 0) with 0 in EF.
    assert (F = 0%Q) as -> by (vm_compute in EF; congruence).
    rewrite (float_round_exact k) by (done || by rewrite Qplus_0_l).
    rewrite Qplus_0_l, Hr. unfold Qlt. simpl.
    change (Z.pos 9007199254740992) with (2 ^ 53). lia.
  - intros Hm. apply float_round_ge_1.
    assert (1 <= F)%Q as HF.
    { unfold float_of_int in EF. cbn zeta in EF.
      destruct (_ || _) in EF; [done|]. injection EF as <-.
      apply float_round_ge_1. rewrite <- (Zle_Qle 1). lia. }
    lra.
Qed.

(** The order [longest_dimension_first] walks the dimensions in, when the
    sort returns: a permutation of the three dimensions with those of
    magnitude zero last, after three draws. *)
Lemma ldf_order_inv g n x y z dims n' :
  random_double g →
  ldf_order (x, y, z) g n = Ok (dims, n') →
  n' = (n + 3)%nat
  ∧ dims ≡ₚ [(0%nat, x); (1%nat, y); (2%nat, z)]
  ∧ zeros_last dims.
Proof.
  intros Hg. unfold ldf_order.
  cbv [mapM_rand mbind Rand_bind mret Rand_ret random lift].
  cbn [snd].
  destruct (int_add_float (Z.abs x) (rng_random g n)) as [kx|e] eqn:Ex; [|done].
  destruct (int_add_float (Z.abs y) (rng_random g (S n))) as [ky|e] eqn:Ey; [|done].
  destruct (int_add_float (Z.abs z) (rng_random g (S (S n)))) as [kz|e] eqn:Ez;
    [|done].
  set (keyed := [(kx, (0%nat, x)); (ky, (1%nat, y)); (kz, (2%nat, z))]).
  remember (sort_keyed Qgt_bool keyed) as sorted eqn:Hsorted.
  intros [= <- <-]. subst sorted. split; [lia|].
  split.
  - rewrite (sort_keyed_perm Qgt_bool keyed). done.
  - apply desc_zeros_last; [|apply sort_keyed_desc].
    rewrite (sort_keyed_perm Qgt_bool keyed). subst keyed.
    repeat constructor; cbn [fst snd];
      eapply ldf_key; try eassumption; apply Hg.
Qed.

(** The sort returns when the three magnitudes convert to floats. *)
Lemma ldf_order_ok g n x y z :
  fits_float x → fits_float y → fits_float z →
  ∃ dims, ldf_order (x, y, z) g n = Ok (dims, (n + 3)%nat).
Proof.
  unfold fits_float. intros Hx Hy Hz. unfold ldf_order.
  cbv [mapM_rand mbind Rand_bind mret Rand_ret random lift int_add_float
       result_bind result_ret].
  cbn [snd].
  rewrite !float_of_int_fits by lia.
  eexists. do 2 f_equal. lia.
Qed.

(** The loops yield one position for each step they take. *)
Lemma ldf_hops_length steps dimension sign width height xy ys xy' :
  ldf_hops steps dimension sign width height xy = Ok (ys, xy') →
  length ys = length steps.
Proof.
  revert xy ys xy'. induction steps as [|s steps IH]; intros [x y] ys xy'.
  - by intros [= <- <-].
  - cbn [ldf_hops]. destruct (advance dimension sign (x, y)) as [x1 y1].
    destruct (wrap x1 width) as [x2|e]; [|done]. cbn [mbind result_bind].
    destruct (wrap y1 height) as [y2|e]; [|done]. cbn [mbind result_bind].
    destruct (ldf_hops steps dimension sign width height (x2, y2))
      as [[ys' xy'']|e] eqn:E; [|done].
    cbn [mbind result_bind mret result_ret]. intros [= <- <-].
    simpl. f_equal. by eapply IH.
Qed.

Lemma ldf_walk_length dims width height xy ys xy' :
  zeros_last dims →
  ldf_walk dims width height xy = Ok (ys, xy') →
  Z.of_nat (length ys) = total_hops dims.
Proof.
  intros Hz. revert xy ys xy'.
  induction Hz as [|[d m] dims Hz IH Hrest]; intros xy ys xy'.
  - by intros [= <- <-].
  - cbn [ldf_walk]. case_decide as Hm.
    + intros [= <- <-]. subst m.
      assert (Forall (fun p : nat * Z => snd p = 0) dims) as Hall.
      { eapply Forall_impl; [exact Hrest|]. simpl. auto. }
      destruct (all_zero_totals dims Hall) as (Ht & _).
      simpl. lia.
    + destruct (ldf_hops _ _ _ _ _ xy) as [[ys1 xy1]|e] eqn:E1; [|done].
      cbn [mbind result_bind].
      destruct (ldf_walk dims width height xy1) as [[ys2 xy2]|e] eqn:E2; [|done].
      cbn [mbind result_bind mret result_ret]. intros [= <- <-].
      apply ldf_hops_length in E1. rewrite length_range in E1.
      apply IH in E2. rewrite length_app. simpl. lia.
Qed.

(** A run of [longest_dimension_first] that returns yields as many
    positions as the magnitudes of the vector add up to. *)
Lemma ldf_count g n x y z start width height steps n' :
  random_double g →
  longest_dimension_first (x, y, z) start width height g n = Ok (steps, n') →
  Z.of_nat (length steps) = Z.abs x + Z.abs y + Z.abs z.
Proof.
  intros Hg. unfold longest_dimension_first.
  unfold mbind at 1. unfold Rand_bind at 1.
  destruct (ldf_order (x, y, z) g n) as [[dims n1]|e] eqn:Eo; [|done].
  destruct (ldf_order_inv g n x y z dims n1 Hg Eo) as (_ & Hperm & Hzeros).
  unfold mbind, Rand_bind, lift.
  destruct (ldf_walk dims width height start) as [[ys xy']|e] eqn:Ew; [|done].
  unfold mret, Rand_ret. intros [= <- <-].
  apply (ldf_walk_length _ _ _ _ _ _ Hzeros) in Ew.
  rewrite (total_hops_perm _ _ Hperm) in Ew. simpl in Ew. lia.
Qed.

(** A run of [longest_dimension_first] on a vector whose magnitudes
    convert to floats, with wrap parameters that are not zero: the order
    [dims] the sort chooses is a permutation of the three dimensions, and
    the walk in that order makes [total_hops dims] steps and ends, when
    it makes a step at all, at the last position yielded. *)
Lemma ldf_run g n x y z sx sy width height :
  random_double g → bound_ok width → bound_ok height →
  fits_float x → fits_float y → fits_float z →
  ∃ dims steps x' y',
    longest_dimension_first (x, y, z) (sx, sy) width height g n
      = Ok (steps, (n + 3)%nat)
    ∧ dims ≡ₚ [(0%nat, x); (1%nat, y); (2%nat, z)]
    ∧ Z.of_nat (length steps) = total_hops dims
    ∧ norm width x' = norm width (sx + displacement_x dims)
    ∧ norm height y' = norm height (sy + displacement_y dims)
    ∧ ((steps = [] ∧ x' = sx ∧ y' = sy)
       ∨ (x' = norm width x' ∧ y' = norm height y' ∧ last steps = Some (x', y'))).
Proof.
  intros Hg HW HH Hx Hy Hz. unfold longest_dimension_first.
  destruct (ldf_order_ok g n x y z Hx Hy Hz) as (dims & Hdims).
  destruct (ldf_order_inv g n x y z dims _ Hg Hdims) as (_ & Hperm & Hzeros).
  unfold mbind at 1. unfold Rand_bind at 1. rewrite Hdims.
  unfold mbind, Rand_bind, lift.
  destruct (ldf_walk_spec dims width height sx sy HW HH Hzeros)
    as (ys & x' & y' & -> & Hwalk).
  unfold mret, Rand_ret. by exists dims, ys, x', y'.
Qed.

(** C2, as the code has it: for every vector [(x, y, z)] whose
    magnitudes convert to floats, every start, wrap parameters that are
    absent or not zero, and every outcome of the random draws,
    [longest_dimension_first] yields [|x| + |y| + |z|] steps, and the
    position of the last step is [start + (x - z, y - z)], each
    coordinate taken modulo the wrap parameter when one is given. *)
Theorem longest_dimension_first_steps
    (g : Rng) (n : nat) (x y z sx sy : Z) (width height : option Z) :
  random_double g → bound_ok width → bound_ok height →
  fits_float x → fits_float y → fits_float z →
  ∃ steps,
    longest_dimension_first (x, y, z) (sx, sy) width height g n
      = Ok (steps, (n + 3)%nat)
    ∧ Z.of_nat (length steps) = Z.abs x + Z.abs y + Z.abs z
    ∧ (steps ≠ [] →
       last steps = Some (norm width (sx + (x - z)), norm height (sy + (y - z)))).
Proof.
  intros Hg HW HH Hx Hy Hz.
  destruct (ldf_run g n x y z sx sy width height Hg HW HH Hx Hy Hz)
    as (dims & steps & x' & y' & Hrun & Hperm & Hlen & Ex' & Ey' & Hlast).
  exists steps. split; [exact Hrun|].
  rewrite (total_hops_perm _ _ Hperm) in Hlen.
  rewrite (displacement_x_perm _ _ Hperm) in Ex'.
  rewrite (displacement_y_perm _ _ Hperm) in Ey'.
  simpl in Hlen, Ex', Ey'.
  split; [lia|].
  intros Hne. destruct Hlast as [(-> & _)|(Ex & Ey & Hl)]; [done|].
  rewrite Hl, Ex, Ey, Ex', Ey'. do 3 f_equal; lia.
Qed.

(** C3: the number of hops of any longest-dimension-first traversal of
    [shortest_mesh_path s d] is [shortest_mesh_path_length s d], whatever
    the random draws, the start and the wrap parameters; there is such a
    traversal when the wrap parameters are not zero and the magnitudes of
    the vector convert to floats; and the absolute values of the
    components of the minimised [d - s] add up to the largest minus the
    smallest component of [d - s]. *)
Theorem shortest_mesh_path_hops
    (g : Rng) (n : nat) (s d : Z * Z * Z) (start : Z * Z) (width height : option Z) :
  random_double g →
  (∀ steps m,
     longest_dimension_first (shortest_mesh_path s d) start width height g n
       = Ok (steps, m) →
     Z.of_nat (length steps) = shortest_mesh_path_length s d)
  ∧ (bound_ok width → bound_ok height →
     fits_float (shortest_mesh_path_length s d) →
     ∃ steps m,
       longest_dimension_first (shortest_mesh_path s d) start width height g n
         = Ok (steps, m))
  ∧ (let '(x, y, z) := shortest_mesh_path s d in
     let '(dx, dy, dz) := delta s d in
     Z.abs x + Z.abs y + Z.abs z
     = Z.max (Z.max dx dy) dz - Z.min (Z.min dx dy) dz).
Proof.
  intros Hg.
  unfold shortest_mesh_path, shortest_mesh_path_length.
  destruct (delta s d) as [[dx dy] dz]. rewrite minimise_xyz_eq.
  destruct start as [sx sy].
  set (m := median dx dy dz).
  assert (Z.abs (dx - m) + Z.abs (dy - m) + Z.abs (dz - m)
          = Z.max (Z.max dx dy) dz - Z.min (Z.min dx dy) dz) as Hsum
    by (subst m; unfold median; lia).
  split; [|split; [|exact Hsum]].
  - intros steps n' Hrun.
    apply (ldf_count g n _ _ _ _ _ _ _ _ Hg) in Hrun. lia.
  - intros HW HH Hfits. unfold fits_float in Hfits.
    destruct (ldf_run g n (dx - m) (dy - m) (dz - m) sx sy width height Hg HW HH)
      as (dims & steps & _ & _ & Hrun & _);
      [unfold fits_float; lia .. |].
    by exists steps, (n + 3)%nat.
Qed.

End LdfFacts.

Lemma rng_zero_random_ok : random_ok rng_zero.
Proof. intros n. split; [apply Qle_refl | reflexivity]. Qed.

Lemma rng_zero_ok : rng_ok rng_zero.
Proof. split; [apply rng_zero_random_ok|]. intros n a b Hab. simpl. lia. Qed.

Lemma rng_zero_double : random_double rng_zero.
Proof. intros n. exists 0. split; [lia | reflexivity]. Qed.

(** Doubles [k * 2 ^ -53] with [0 <= k < 2 ^ 53] lie in [[0, 1)]. *)
Lemma random_double_ok g : random_double g → random_ok g.
Proof.
  intros Hg n. destruct (Hg n) as (k & Hk & Hr). rewrite Hr.
  change (2 ^ 53) with 9007199254740992 in Hk.
  unfold Qle, Qlt. simpl. lia.
Qed.

Lemma rng_descending_ok : rng_ok rng_descending.
Proof.
  split.
  - intros n. unfold Qle, Qlt. simpl. lia.
  - intros n a b Hab. simpl. lia.
Qed.

Lemma longest_dimension_first_steps_witness :
  random_double rng_zero ∧ bound_ok (Some 8) ∧ bound_ok None
  ∧ fits_float 2 ∧ fits_float (-1) ∧ fits_float 0
  ∧ ∃ steps,
      RouteUtils.longest_dimension_first (2, -1, 0) (7, 1) (Some 8) None rng_zero 0%nat
        = Ok (steps, (0 + 3)%nat)
      ∧ Z.of_nat (length steps) = Z.abs 2 + Z.abs (-1) + Z.abs 0
      ∧ (steps ≠ [] →
         last steps = Some (norm (Some 8) (7 + (2 - 0)), norm None (1 + (-1 - 0)))).
Proof.
  assert (random_double rng_zero) as Hg by apply rng_zero_double.
  assert (bound_ok (Some 8)) as HW by discriminate.
  assert (bound_ok None) as HH by discriminate.
  assert (fits_float 2) as Hx by (vm_compute; reflexivity).
  assert (fits_float (-1)) as Hy by (vm_compute; reflexivity).
  assert (fits_float 0) as Hz by (vm_compute; reflexivity).
  repeat (split; [assumption|]).
  exact (longest_dimension_first_steps rng_zero 0%nat 2 (-1) 0 7 1 (Some 8) None
           Hg HW HH Hx Hy Hz).
Defined.

(** C2 as stated fails: with a width of zero the first step raises
    [ZeroDivisionError], and a magnitude of [10 ^ 400] does not convert
    to a float, so the sort raises [OverflowError]; no step is yielded in
    either case. *)
Lemma longest_dimension_first_raises :
  RouteUtils.longest_dimension_first (1, 0, 0) (0, 0) (Some 0) None rng_zero 0%nat
    = Raise ZeroDivisionError
  ∧ RouteUtils.longest_dimension_first (10 ^ 400, 0, 0) (0, 0) None None rng_zero 0%nat
    = Raise OverflowError.
Proof. split; vm_compute; reflexivity. Qed.

Lemma shortest_mesh_path_hops_witness :
  random_double rng_zero
  ∧ (∀ steps m,
       RouteUtils.longest_dimension_first
         (Geometry.shortest_mesh_path (0, 0, 0) (3, 1, 0)) (0, 0) (Some 8) (Some 8)
         rng_zero 0%nat = Ok (steps, m) →
       Z.of_nat (length steps) = Geometry.shortest_mesh_path_length (0, 0, 0) (3, 1, 0))
  ∧ (∃ steps m,
       RouteUtils.longest_dimension_first
         (Geometry.shortest_mesh_path (0, 0, 0) (3, 1, 0)) (0, 0) (Some 8) (Some 8)
         rng_zero 0%nat = Ok (steps, m))
  ∧ (let '(x, y, z) := Geometry.shortest_mesh_path (0, 0, 0) (3, 1, 0) in
     let '(dx, dy, dz) := Geometry.delta (0, 0, 0) (3, 1, 0) in
     Z.abs x + Z.abs y + Z.abs z
     = Z.max (Z.max dx dy) dz - Z.min (Z.min dx dy) dz).
Proof.
  assert (random_double rng_zero) as Hg by apply rng_zero_double.
  destruct (shortest_mesh_path_hops rng_zero 0%nat (0, 0, 0) (3, 1, 0) (0, 0)
              (Some 8) (Some 8) Hg) as (Hcount & Hrun & Hsum).
  split; [exact Hg|]. split; [exact Hcount|]. split; [|exact Hsum].
  apply Hrun; [discriminate | discriminate | vm_compute; reflexivity].
Defined.

(** ** Properties of [copy_and_disconnect_tree] *)

Section CopyFacts.
Import Machine Ner.
Context {resources : Type}.

(** C6, as the code has it: when the root of the tree lies on a chip
    that is not in the machine, [copy_and_disconnect_tree], run with
    assertions enabled, fails in its first iteration, and the failure is
    the [AssertionError] of [assert new_parent is not None]. *)
Theorem copy_and_disconnect_tree_dead_root
    (machine : Machine resources) (old : list RoutingTree) (root : nat)
    (node : RoutingTree) (fuel : nat) :
  old !! root = Some node →
  contains_chip machine (chip node) = false →
  copy_and_disconnect_tree (S fuel) old root machine = Some (Raise AssertionError).
Proof.
  intros Hroot Hdead.
  unfold copy_and_disconnect_tree. cbn [copy_loop].
  rewrite Hroot. unfold copy_visit. rewrite Hdead. reflexivity.
Qed.

End CopyFacts.

Lemma copy_and_disconnect_tree_dead_root_witness :
  lone_root !! 0%nat = Some {| Ner.chip := (5, 5); Ner.children := ∅ |}
  ∧ Machine.contains_chip machine_2x2 (5, 5) = false
  ∧ Ner.copy_and_disconnect_tree 1%nat lone_root 0%nat machine_2x2
    = Some (Raise AssertionError).
Proof.
  split; [reflexivity|]. split; [reflexivity|].
  apply (copy_and_disconnect_tree_dead_root machine_2x2 lone_root 0%nat
           {| Ner.chip := (5, 5); Ner.children := ∅ |} 0%nat); reflexivity.
Defined.

(** C6 as stated fails: the root of [lone_root] is not a chip of
    [machine_2x2], and [copy_and_disconnect_tree] does not fail with
    [MachineHasDisconnectedSubregion] on it. *)
Lemma copy_and_disconnect_tree_not_disconnected_subregion :
  ¬ (∀ (machine : Machine.Machine nat) (old : list Ner.RoutingTree)
       (root : nat) (node : Ner.RoutingTree) (fuel : nat),
       old !! root = Some node →
       Machine.contains_chip machine (Ner.chip node) = false →
       Ner.copy_and_disconnect_tree (S fuel) old root machine
       = Some (Raise MachineHasDisconnectedSubregion)).
Proof.
  intros H.
  specialize (H machine_2x2 lone_root 0%nat
                {| Ner.chip := (5, 5); Ner.children := ∅ |} 0%nat
                eq_refl eq_refl).
  vm_compute in H. discriminate H.
Qed.

(** ** Properties of [ner_net] *)

Section NerFacts.
Import Geometry Machine RouteUtils Ner.

Lemma concentric_hexagons_0 destination :
  Ner.concentric_hexagons 0 destination = [destination].
Proof. by destruct destination. Qed.

Lemma find_neighbour_radius_0 route destination width height wrap_around :
  (wrap_around = true → in_system width height destination) →
  find_neighbour (Ner.concentric_hexagons 0 destination) route destination
    width height wrap_around = Ok None.
Proof.
  intros Hin. rewrite concentric_hexagons_0. destruct destination as [x y].
  cbn [find_neighbour]. destruct wrap_around.
  - destruct (Hin eq_refl) as [Hx Hy]. simpl in Hx, Hy.
    unfold pymod. repeat (case_decide; [lia|]).
    cbn [mbind result_bind]. rewrite !Z.mod_small by lia.
    rewrite (bool_decide_eq_true_2 ((x, y) = (x, y))) by done.
    by rewrite andb_false_r.
  - cbn [mbind result_bind].
    rewrite (bool_decide_eq_true_2 ((x, y) = (x, y))) by done.
    by rewrite andb_false_r.
Qed.

Lemma mapM_result_keyed {K A : Type} (f : A → result K) (l : list A) keyed :
  mapM_result (fun d => k ← f d; mret (k, d)) l = Ok keyed → map snd keyed = l.
Proof.
  revert keyed. induction l as [|d l IH]; intros keyed; cbn [mapM_result].
  - intros [= <-]. done.
  - destruct (f d) as [k|e]; cbn [mbind result_bind]; [|done].
    destruct (mapM_result _ l) as [keyed'|e]; cbn [mbind result_bind]; [|done].
    intros [= <-]. simpl. f_equal. by apply IH.
Qed.

Lemma sorted_destinations_perm source destinations width height wrap_around order :
  sorted_destinations source destinations width height wrap_around = Ok order →
  order ≡ₚ destinations.
Proof.
  unfold sorted_destinations.
  destruct (mapM_result _ destinations) as [keyed|e] eqn:E;
    cbn [mbind result_bind]; [|done].
  intros [= <-]. apply mapM_result_keyed in E. rewrite <- E.
  by rewrite (sort_keyed_perm Z.ltb keyed).
Qed.

Lemma insert_keyed_asc {A : Type} (x : Z * A) l :
  StronglySorted key_le l → StronglySorted key_le (insert_keyed Z.ltb x l).
Proof.
  induction 1 as [|y l Hl IH Hy]; simpl.
  - repeat constructor.
  - destruct (Z.ltb_spec (fst y) (fst x)) as [Hlt|Hge].
    + constructor; [done|].
      rewrite insert_keyed_perm. constructor; [|done].
      unfold key_le. lia.
    + constructor; [by constructor|].
      constructor; [done|].
      eapply Forall_impl; [exact Hy|].
      intros z Hz. unfold key_le in *. lia.
Qed.

Lemma sort_keyed_asc {A : Type} (l : list (Z * A)) :
  StronglySorted key_le (sort_keyed Z.ltb l).
Proof.
  induction l as [|x l IH]; [constructor|].
  by apply insert_keyed_asc.
Qed.

Lemma mapM_result_keys {K A : Type} (f : A → result K) (l : list A) keyed :
  mapM_result (fun d => k ← f d; mret (k, d)) l = Ok keyed →
  Forall (fun p => f (snd p) = Ok (fst p)) keyed.
Proof.
  revert keyed. induction l as [|d l IH]; intros keyed; cbn [mapM_result].
  - intros [= <-]. constructor.
  - destruct (f d) as [k|e] eqn:E; cbn [mbind result_bind]; [|done].
    destruct (mapM_result _ l) as [keyed'|e]; cbn [mbind result_bind]; [|done].
    intros [= <-]. constructor; [done|]. by apply IH.
Qed.

Lemma sorted_destinations_closest_first source destinations width height
    wrap_around order :
  sorted_destinations source destinations width height wrap_around = Ok order →
  closest_first source width height wrap_around order.
Proof.
  unfold sorted_destinations.
  destruct (mapM_result _ destinations) as [keyed|e] eqn:E;
    cbn [mbind result_bind]; [|done].
  intros [= <-]. apply mapM_result_keys in E.
  rewrite <- (sort_keyed_perm Z.ltb keyed) in E.
  pose proof (sort_keyed_asc keyed) as Hsorted.
  exists (map fst (sort_keyed Z.ltb keyed)).
  induction Hsorted as [|p l Hl IH Hp]; simpl; [by split; constructor|].
  apply Forall_cons in E as [Ep E]. destruct (IH E) as [Hkeys Hasc].
  split; [by constructor|].
  constructor; [done|]. by apply Forall_map.
Qed.

Lemma destination_key_in_system source width height wrap_around destination :
  (wrap_around = true → in_system width height destination) →
  ∃ distance,
    destination_key source width height wrap_around destination = Ok distance.
Proof.
  intros Hin. unfold destination_key. destruct wrap_around; simpl; [|by eexists].
  destruct (Hin eq_refl) as [Hx Hy].
  unfold shortest_torus_path_length.
  destruct (delta _ _) as [[x y] z]. unfold pymod.
  repeat (case_decide; [lia|]). by eexists.
Qed.

Lemma sorted_destinations_in_system source destinations width height wrap_around :
  (wrap_around = true → Forall (in_system width height) destinations) →
  ∃ order,
    sorted_destinations source destinations width height wrap_around = Ok order.
Proof.
  intros Hin. unfold sorted_destinations.
  assert (∃ keyed,
            mapM_result
              (fun d => k ← destination_key source width height wrap_around d;
                        mret (k, d)) destinations = Ok keyed) as [keyed ->].
  { induction destinations as [|d ds IH]; [by eexists|].
    cbn [mapM_result].
    destruct (destination_key_in_system source width height wrap_around d)
      as [k ->].
    { intros Hw. specialize (Hin Hw). by apply Forall_cons in Hin as [? _]. }
    destruct IH as [keyed ->].
    { intros Hw. specialize (Hin Hw). by apply Forall_cons in Hin as [_ ?]. }
    by eexists. }
  by eexists.
Qed.

(** The loop over a walk in [ner_net] extends the tree hop by hop. *)
Lemma attach_path_hops path store route last_node :
  attach_path path store route last_node
  = fst (foldl hop (store, route, last_node) path).
Proof.
  revert store route last_node.
  induction path as [|xy path IH]; intros store route last_node; [done|].
  cbn [attach_path foldl hop]. destruct (route !! xy); cbn [new_node]; apply IH.
Qed.

(** The loop over a walk never replaces an entry of the dictionary. *)
Lemma attach_path_keeps path store route last_node xy a :
  route !! xy = Some a →
  snd (attach_path path store route last_node) !! xy = Some a.
Proof.
  revert store route last_node.
  induction path as [|xy' path IH]; intros store route last_node Hxy; [done|].
  cbn [attach_path]. destruct (route !! xy') as [this_node|] eqn:E.
  - by apply IH.
  - cbn [new_node]. apply IH. rewrite lookup_insert_ne; [done|].
    intros ->. congruence.
Qed.

Lemma route_from_source source width height wrap_around root store route
    destination g n :
  route !! source = Some root →
  route_from source width height wrap_around store route destination g n
  = ldf_from_source source width height wrap_around root store route destination g n.
Proof.
  intros Hroot.
  unfold route_from, ldf_from_source, mbind, Rand_bind, lift, mret, Rand_ret,
    getitem_route.
  destruct (if wrap_around then _ else _) as [[vector n1]|e]; [|done].
  rewrite Hroot.
  destruct (longest_dimension_first _ _ _ _ g n1) as [[path n2]|e]; [|done].
  by rewrite attach_path_hops.
Qed.

Lemma route_from_keeps neighbour width height wrap_around store route
    destination g n store' route' n' xy a :
  route !! xy = Some a →
  route_from neighbour width height wrap_around store route destination g n
    = Ok (store', route', n') →
  route' !! xy = Some a.
Proof.
  intros Hxy. unfold route_from, mbind, Rand_bind, lift, mret, Rand_ret.
  destruct (if wrap_around then _ else _) as [[vector n1]|e]; [|done].
  destruct (getitem_route route neighbour) as [last_node|e]; [|done].
  destruct (longest_dimension_first _ _ _ _ g n1) as [[path n2]|e]; [|done].
  intros [= E <-].
  pose proof (attach_path_keeps path store route last_node xy a Hxy) as H.
  by rewrite E in H.
Qed.

(** With a radius of 0 the loop of [ner_net] routes every destination
    from the source, and the source's chip keeps the root as its node. *)
Lemma ner_loop_radius_0 source width height wrap_around root destinations
    store route g n :
  (wrap_around = true → Forall (in_system width height) destinations) →
  route !! source = Some root →
  ner_loop source width height wrap_around 0 destinations store route g n
  = ldf_loop source width height wrap_around root destinations store route g n
  ∧ ∀ store' route' n',
      ner_loop source width height wrap_around 0 destinations store route g n
        = Ok (store', route', n') →
      route' !! source = Some root.
Proof.
  intros Hin. revert store route g n.
  induction destinations as [|d ds IH]; intros store route g n Hroot.
  - split; [done|]. by intros store' route' n' [= <- <- <-].
  - cbn [ner_loop ldf_loop]. unfold mbind, Rand_bind, lift.
    rewrite find_neighbour_radius_0
      by (intros Hw; specialize (Hin Hw); by apply Forall_cons in Hin as [? _]).
    cbn [default].
    rewrite <- (route_from_source source width height wrap_around root) by done.
    destruct (route_from source width height wrap_around store route d g n)
      as [[[store1 route1] n1]|e] eqn:E; [|by split].
    apply IH.
    + intros Hw. specialize (Hin Hw). by apply Forall_cons in Hin as [_ ?].
    + eapply route_from_keeps; [exact Hroot | exact E].
Qed.

(** Called without [wrap_around] and [radius], [ner_net] itself does not
    wrap around and searches ten rings; [route] never calls it so. *)
Lemma ner_net_own_defaults source destinations width height :
  ner_net source destinations width height None None
  = ner_net source destinations width height (Some false) (Some 10).
Proof. reflexivity. Qed.

(** C9, as the code has it: the [radius] argument of [route] is 20 when
    the caller leaves it out, and [route] hands it to [ner_net], whose
    own [radius] is 10 when left out.  With a radius of 0, and sinks that
    are chips of the system when the search wraps around, the search
    finds no neighbour for any sink, and the tree is the one pure
    longest-dimension-first routing from the source builds for the sinks
    taken closest first. *)
Theorem ner_radius_default_and_zero {resources : Type}
    (machine : Machine resources) (wrap_around : bool)
    (source : Z * Z) (sinks : list (Z * Z)) :
  (wrap_around = true → Forall (in_system (width machine) (height machine)) sinks) →
  route_ner_net machine wrap_around source sinks None
    = ner_net source sinks (width machine) (height machine)
        (Some wrap_around) (Some 20)
  ∧ ner_net source sinks (width machine) (height machine) (Some wrap_around) None
    = ner_net source sinks (width machine) (height machine)
        (Some wrap_around) (Some 10)
  ∧ (∀ route sink, sink ∈ sinks →
       find_neighbour (Ner.concentric_hexagons 0 sink) route sink
         (width machine) (height machine) wrap_around = Ok None)
  ∧ ∃ order,
      order ≡ₚ sinks
      ∧ closest_first source (width machine) (height machine) wrap_around order
      ∧ ∀ g n,
          route_ner_net machine wrap_around source sinks (Some 0) g n
          = ldf_net source order (width machine) (height machine) wrap_around g n.
Proof.
  intros Hin. split; [reflexivity|]. split; [reflexivity|]. split.
  - intros route sink Hsink. apply find_neighbour_radius_0.
    intros Hw. specialize (Hin Hw). rewrite Forall_forall in Hin. by apply Hin.
  - destruct (sorted_destinations_in_system source sinks (width machine)
                (height machine) wrap_around Hin) as [order E].
    pose proof (sorted_destinations_perm _ _ _ _ _ _ E) as Hperm.
    exists order. split; [done|].
    split; [by eapply sorted_destinations_closest_first|].
    intros g n. unfold route_ner_net, ner_net, ldf_net.
    change (default 20 (Some 0)) with 0.
    change (default 10 (Some 0)) with 0.
    change (default false (Some wrap_around)) with wrap_around.
    change (new_node [] source)
      with ([ {| chip := source; children := ∅ |} ], 0%nat).
    cbv beta iota zeta. unfold mbind, Rand_bind, lift. rewrite E.
    destruct (ner_loop_radius_0 source (width machine) (height machine)
                wrap_around 0%nat order
                [ {| chip := source; children := ∅ |} ]
                {[ source := 0%nat ]} g n) as [Heq Hkeep].
    { intros Hw. rewrite Hperm. by apply Hin. }
    { apply lookup_singleton_eq. }
    rewrite <- Heq.
    destruct (ner_loop _ _ _ _ _ order _ _ g n)
      as [[[store1 route1] n1]|e] eqn:El; [|done].
    unfold getitem_route. by rewrite (Hkeep store1 route1 n1 eq_refl).
Qed.

Lemma lookup_consistent_add_child store route parent child :
  lookup_consistent store route →
  lookup_consistent (add_child store parent child) route.
Proof.
  intros Hc xy a Ha. destruct (Hc xy a Ha) as (node & Hnode & Hchip).
  unfold add_child. destruct (decide (parent = a)) as [->|Hne].
  - eexists. rewrite list_lookup_alter_eq, Hnode. split; [reflexivity|done].
  - exists node. by rewrite list_lookup_alter_ne.
Qed.

Lemma lookup_consistent_new_node store route xy :
  lookup_consistent store route →
  lookup_consistent (fst (new_node store xy)) (<[xy := snd (new_node store xy)]> route).
Proof.
  intros Hc xy' a. unfold new_node. cbn [fst snd].
  destruct (decide (xy = xy')) as [->|Hne].
  - rewrite lookup_insert_eq. intros [= <-].
    eexists. rewrite lookup_app_r, Nat.sub_diag by done. done.
  - rewrite lookup_insert_ne by done. intros Ha.
    destruct (Hc xy' a Ha) as (node & Hnode & Hchip).
    exists node. split; [|done]. by apply lookup_app_l_Some.
Qed.

Lemma attach_path_consistent path store route last_node :
  lookup_consistent store route →
  lookup_consistent (fst (attach_path path store route last_node))
                    (snd (attach_path path store route last_node)).
Proof.
  revert store route last_node.
  induction path as [|xy path IH]; intros store route last_node Hc; [done|].
  cbn [attach_path]. destruct (route !! xy) as [this_node|] eqn:E.
  - apply IH. by apply lookup_consistent_add_child.
  - cbn [new_node]. apply IH. apply lookup_consistent_add_child.
    apply (lookup_consistent_new_node store route xy Hc).
Qed.

Lemma route_from_consistent neighbour width height wrap_around store route
    destination g n store' route' n' :
  lookup_consistent store route →
  route_from neighbour width height wrap_around store route destination g n
    = Ok (store', route', n') →
  lookup_consistent store' route'.
Proof.
  intros Hc. unfold route_from, mbind, Rand_bind, lift, mret, Rand_ret.
  destruct (if wrap_around then _ else _) as [[vector n1]|e]; [|done].
  destruct (getitem_route route neighbour) as [last_node|e]; [|done].
  destruct (longest_dimension_first _ _ _ _ g n1) as [[path n2]|e]; [|done].
  intros [= E <-].
  pose proof (attach_path_consistent path store route last_node Hc) as H.
  by rewrite E in H.
Qed.

Lemma ner_loop_consistent source width height wrap_around radius destinations
    store route g n store' route' n' :
  lookup_consistent store route →
  ner_loop source width height wrap_around radius destinations store route g n
    = Ok (store', route', n') →
  lookup_consistent store' route'.
Proof.
  revert store route g n.
  induction destinations as [|d ds IH]; intros store route g n Hc.
  - by intros [= <- <- <-].
  - cbn [ner_loop]. unfold mbind, Rand_bind, lift.
    destruct (find_neighbour _ _ _ _ _ _) as [found|e]; [|done].
    destruct (route_from _ _ _ _ _ _ _ g n) as [[[store1 route1] n1]|e] eqn:E; [|done].
    apply IH. eapply route_from_consistent; [exact Hc | exact E].
Qed.

(** The part of the consistency of [ner_net]'s result that holds for
    every input: the root is the node the dictionary holds for the source
    chip, and every key of the dictionary leads to a node on that chip. *)
Lemma ner_net_lookup_consistent source destinations width height wrap_around
    radius g n root route store n' :
  ner_net source destinations width height wrap_around radius g n
    = Ok (root, route, store, n') →
  route !! source = Some root ∧ lookup_consistent store route.
Proof.
  unfold ner_net. cbn [new_node]. unfold mbind, Rand_bind, lift, mret, Rand_ret.
  destruct (sorted_destinations _ _ _ _ _) as [order|e]; [|done].
  destruct (ner_loop _ _ _ _ _ order _ _ g n) as [[[store1 route1] n1]|e] eqn:E; [|done].
  unfold getitem_route.
  destruct (route1 !! source) as [root1|] eqn:Eroot; [|done].
  intros [= <- <- <- <-]. split; [done|].
  eapply ner_loop_consistent; [|exact E].
  intros xy a. rewrite lookup_singleton_Some. intros [<- <-].
  eexists. split; [reflexivity|done].
Qed.

End NerFacts.

Lemma ner_radius_default_and_zero_witness :
  (true = true →
   Forall (in_system (Machine.width machine_2x2) (Machine.height machine_2x2)) [(1, 1)])
  ∧ Ner.route_ner_net machine_2x2 true (0, 0) [(1, 1)] None
    = Ner.ner_net (0, 0) [(1, 1)] (Machine.width machine_2x2)
        (Machine.height machine_2x2) (Some true) (Some 20)
  ∧ Ner.ner_net (0, 0) [(1, 1)] (Machine.width machine_2x2)
      (Machine.height machine_2x2) (Some true) None
    = Ner.ner_net (0, 0) [(1, 1)] (Machine.width machine_2x2)
        (Machine.height machine_2x2) (Some true) (Some 10)
  ∧ (∀ route sink, sink ∈ [(1, 1)] →
       Ner.find_neighbour (Ner.concentric_hexagons 0 sink) route sink
         (Machine.width machine_2x2) (Machine.height machine_2x2) true = Ok None)
  ∧ ∃ order,
      order ≡ₚ [(1, 1)]
      ∧ closest_first (0, 0) (Machine.width machine_2x2)
          (Machine.height machine_2x2) true order
      ∧ ∀ g n,
          Ner.route_ner_net machine_2x2 true (0, 0) [(1, 1)] (Some 0) g n
          = ldf_net (0, 0) order (Machine.width machine_2x2)
              (Machine.height machine_2x2) true g n.
Proof.
  assert (true = true →
          Forall (in_system (Machine.width machine_2x2) (Machine.height machine_2x2))
                 [(1, 1)]) as Hin.
  { intros _. repeat constructor; simpl; lia. }
  split; [exact Hin|].
  exact (ner_radius_default_and_zero machine_2x2 true (0, 0) [(1, 1)] Hin).
Defined.

(** C9 as stated fails twice.  Called without [radius], on a system of
    20 by 20 chips without wrap-around, [ner_net] searches ten rings:
    the destination [(15, 1)] is routed from the source through
    [(1, 0)], where a radius of 20 finds the neighbour [(0, 1)] and
    leaves [(1, 0)] out of the tree.  And with a radius of 0 on a torus
    of 8 by 8 chips the search for the destination [(10, 9)] finds the
    neighbour [(2, 1)], once that chip is in the tree. *)
Lemma ner_radius_not_20_and_zero_finds_neighbour :
  (∃ root route store n root' route' store' n',
     Ner.ner_net (0, 0) [(0, 1); (15, 1)] 20 20 None None rng_zero 0%nat
       = Ok (root, route, store, n)
     ∧ Ner.ner_net (0, 0) [(0, 1); (15, 1)] 20 20 None (Some 20) rng_zero 0%nat
       = Ok (root', route', store', n')
     ∧ route !! (1, 0) = Some 2%nat
     ∧ route' !! (1, 0) = None)
  ∧ (∃ root route store n,
       Ner.ner_net (0, 0) [(2, 1)] 8 8 (Some true) (Some 0) rng_zero 0%nat
         = Ok (root, route, store, n)
       ∧ Ner.find_neighbour (Ner.concentric_hexagons 0 (10, 9)) route (10, 9)
           8 8 true = Ok (Some (2, 1))).
Proof.
  split.
  - eexists _, _, _, _, _, _, _, _.
    split; [vm_compute; reflexivity|].
    split; [vm_compute; reflexivity|].
    split; [by vm_compute|by vm_compute].
  - eexists _, _, _, _.
    split; [vm_compute; reflexivity|]. by vm_compute.
Qed.

(** C5 at the destinations [(2, 2)], [(3, 1)], [(3, 2)] of a net sourced
    at [(0, 0)]: [(3, 1)] is reached from [(2, 2)] through [(3, 2)];
    [(3, 2)], a destination itself, is then routed from its neighbour
    [(3, 1)], and the node at [(3, 2)] (address 3), already a child of the
    node at [(2, 2)] (address 2), becomes a child of the node at [(3, 1)]
    (address 4) too. *)
Theorem ner_net_node_with_two_parents :
  rng_ok rng_descending
  ∧ ∃ root route store n,
      Ner.ner_net (0, 0) [(2, 2); (3, 1); (3, 2)] 8 8 (Some false) (Some 20)
        rng_descending 0%nat = Ok (root, route, store, n)
      ∧ route !! (3, 2) = Some 3%nat
      ∧ two_parents store 3%nat.
Proof.
  split; [apply rng_descending_ok|].
  eexists _, _, _, _. split; [vm_compute; reflexivity|].
  split; [by vm_compute|].
  exists 2%nat, 4%nat. eexists _, _.
  split; [lia|]. split; [reflexivity|]. split; [reflexivity|].
  split;
    match goal with
    | |- ?x ∈ ?s => apply (bool_decide_unpack (x ∈ s)); vm_compute; exact I
    end.
Qed.
